(** * htmlnode: searching and traversing parsed HTML

    A shallow embedding of [htmlnode.go] (package [htmlnode]) together
    with the properties its specification states about the comparator,
    the ancestor-chain matcher, the pattern compiler and the depth-first
    traversal primitives.

    The Go code works on a graph of [html.Node] structures linked by
    pointers.  The embedding keeps that graph: a heap maps locations to
    node records and a pointer is an optional location ([None] is Go's
    [nil]).  Loops whose termination depends on the shape of the graph
    take a fuel argument and return [None] when it runs out.

    The file has two parts.  The first holds the definitions: the data
    model, the functions of the package in the order of the source, the
    abstract trees with the invariants that relate them to the heap,
    and the example heaps.  The second holds the properties: the
    comparator and the matcher, the pattern compiler, [Next] on a tree,
    [Flatten], [Prev] as [Next] on the mirror image, [PrintTree], and
    the properties instantiated at the examples. *)

From Stdlib Require Import ZArith Ascii String.
From stdpp Require Import gmap strings list fin_maps.

Local Open Scope Z_scope.

(* ================================================================== *)
(** * Data model: [html.Node] and the heap                             *)
(* ================================================================== *)

(** [html.NodeType], a [uint32] with six constants declared with
    [iota]: [ErrorNode] is 0 and [DoctypeNode] is 5.  [OtherType k]
    stands for the value [6 + k], which is none of the six. *)
Inductive NodeType :=
  | ErrorNode
  | TextNode
  | DocumentNode
  | ElementNode
  | CommentNode
  | DoctypeNode
  | OtherType (k : N).

#[global] Instance NodeType_eq_dec : EqDecision NodeType.
Proof. solve_decision. Defined.

(** [html.Attribute]: a namespace, a key and a value.  The namespace
    field is called [Namespace] in Go as well; here it takes a prefix
    because record projections share one name space. *)
Record Attribute := mkAttribute {
  AttrNamespace : string;
  Key : string;
  Val : string
}.

#[global] Instance Attribute_eq_dec : EqDecision Attribute.
Proof. solve_decision. Defined.

#[global] Instance Attribute_countable : Countable Attribute.
Proof.
  refine (inj_countable'
            (fun a => (AttrNamespace a, Key a, Val a))
            (fun t => mkAttribute t.1.1 t.1.2 t.2) _).
  by intros [].
Defined.

(** Locations of allocated nodes; a pointer [*html.Node] is either
    [nil] or a location. *)
Definition loc := positive.
Definition ptr := option loc.

(** [html.Node].  [Type] is a reserved word, hence [Type_].  The field
    [DataAtom], which the package never reads, is left out. *)
Record Node := mkNode {
  Parent : ptr;
  FirstChild : ptr;
  LastChild : ptr;
  PrevSibling : ptr;
  NextSibling : ptr;
  Type_ : NodeType;
  Data : string;
  Namespace : string;
  Attr : list Attribute
}.

(** The zero value of [html.Node]: what [&html.Node{}] allocates. *)
Definition zeroNode : Node :=
  mkNode None None None None None ErrorNode "" "" [].

#[global] Instance Node_inhabited : Inhabited Node := populate zeroNode.

Abbreviation heap := (gmap loc Node).

(** Reading through a non-nil pointer.  A Go pointer never dangles, so
    the value chosen outside the heap's domain is immaterial; it is the
    zero node. *)
Definition deref (h : heap) (l : loc) : Node := default zeroNode (h !! l).

(** [&html.Node{...}]: allocation at a location not yet in use. *)
Definition alloc (h : heap) (nd : Node) : heap * loc :=
  let l := fresh (dom h) in (<[l := nd]> h, l).

(* ================================================================== *)
(** * Compare                                                          *)
(* ================================================================== *)

(** The first loop of [Compare]: the set [am] of the attributes of
    [n1], a [map[html.Attribute]struct{}] in the source. *)
Definition attr_set (attrs : list Attribute) : gset Attribute :=
  foldl (fun am a => {[ a ]} ∪ am) ∅ attrs.

(** The second loop: return false at the first attribute of [n2] that
    is not a key of [am]. *)
Fixpoint attrs_in (am : gset Attribute) (attrs : list Attribute) : bool :=
  match attrs with
  | [] => true
  | a :: attrs' => if bool_decide (a ∈ am) then attrs_in am attrs' else false
  end.

Definition Compare (h : heap) (n1 n2 : ptr) : bool :=
  match n1, n2 with
  | Some l1, Some l2 =>
      let a := deref h l1 in
      let b := deref h l2 in
      if negb (bool_decide (Type_ a = Type_ b))
         || negb (bool_decide (Data a = Data b))
         || negb (bool_decide (Namespace a = Namespace b))
      then false
      else attrs_in (attr_set (Attr a)) (Attr b)
  | _, _ => false
  end.

(* ================================================================== *)
(** * Match                                                            *)
(* ================================================================== *)

(** The loop of [Match] followed by its two final returns.  Each turn
    of the loop that moves to the parents uses one unit of fuel. *)
Fixpoint Match (fuel : nat) (h : heap) (n1 n2 : ptr) : option bool :=
  match n1, n2 with
  | Some l1, Some l2 =>
      if negb (Compare h n1 n2) then Some false
      else match fuel with
           | O => None
           | S fuel' =>
               Match fuel' h (Parent (deref h l1)) (Parent (deref h l2))
           end
  | None, Some _ => Some false
  | _, _ => Some true
  end.

(** The parent chain of a pointer: the node itself, then its parent, up
    to and including the node whose [Parent] is nil. *)
Inductive chain (h : heap) : ptr -> list loc -> Prop :=
  | chain_nil : chain h None []
  | chain_cons l ls :
      chain h (Parent (deref h l)) ls -> chain h (Some l) (l :: ls).

(* ================================================================== *)
(** * Leaf                                                             *)
(* ================================================================== *)

Section Collaborators.

(** Go's [error] values, the parser of [golang.org/x/net/html] and
    the [io.Writer] handed to [PrintTree] are outside the package.
    The parser receives the heap, the fragment and the context node
    and returns the heap it leaves behind, the roots and an error;
    [Fprintf] receives the state of the writer and the formatted
    text. *)
Variable error : Type.
Variable ParseFragment :
  heap -> string -> loc -> heap * list ptr * option error.
Variable W : Type.
Variable Fprintf : W -> string -> W * option error.
(** [fmt.Sprintf("%#v", s)]: the Go-syntax rendering of a string. *)
Variable Sprintf_v : string -> string.

(** [for n.FirstChild != nil { n = n.FirstChild }]. *)
Fixpoint Leaf_descend (fuel : nat) (h : heap) (n : loc) : option loc :=
  match FirstChild (deref h n) with
  | None => Some n
  | Some c =>
      match fuel with
      | O => None
      | S fuel' => Leaf_descend fuel' h c
      end
  end.

Definition Leaf (fuel : nat) (h : heap) (fragment : string)
  : option (heap * ptr) :=
  let '(h1, ctx) :=
    alloc h (mkNode None None None None None ElementNode "" "" []) in
  let '(h2, ns, err) := ParseFragment h1 fragment ctx in
  if (match err with Some _ => true | None => false end)
     || bool_decide (length ns = 0%nat)
  then
    let '(h3, e) :=
      alloc h2 (mkNode None None None None None ErrorNode "" "" []) in
    Some (h3, Some e)
  else
    match ns with
    | [] => None (* unreachable: [len(ns) == 0] was tested *)
    | None :: _ => Some (h2, None)
    | Some n :: _ =>
        match Leaf_descend fuel h2 n with
        | None => None
        | Some n' => Some (h2, Some n')
        end
    end.

(* ================================================================ *)
(** * Next and Prev                                                 *)
(* ================================================================ *)

(** The [for n.NextSibling == nil] loop of [Next] and the two returns
    after it.  [delta] is a Go [int]; it never leaves the range of a
    32-bit integer, because its absolute value is bounded by the
    length of a parent chain of nodes that are all resident in
    memory, so it is modelled by [Z] without wrap-around. *)
Fixpoint Next_ascend (fuel : nat) (h : heap) (root : ptr)
    (n : loc) (delta : Z) : option (ptr * Z) :=
  match NextSibling (deref h n) with
  | None =>
      match Parent (deref h n) with
      | None => Some (None, delta)
      | Some p =>
          if bool_decide (Some n = root) then Some (None, delta)
          else match fuel with
               | O => None
               | S fuel' => Next_ascend fuel' h root p (delta - 1)
               end
      end
  | Some s =>
      if bool_decide (Some n = root) then Some (None, delta)
      else Some (Some s, delta)
  end.

Definition Next (fuel : nat) (h : heap) (n root : ptr)
  : option (ptr * Z) :=
  match n with
  | None => Some (None, 0)
  | Some l =>
      match FirstChild (deref h l) with
      | Some c => Some (Some c, 0 + 1)
      | None => Next_ascend fuel h root l 0
      end
  end.

Fixpoint Prev_ascend (fuel : nat) (h : heap) (root : ptr)
    (n : loc) (delta : Z) : option (ptr * Z) :=
  match PrevSibling (deref h n) with
  | None =>
      match Parent (deref h n) with
      | None => Some (None, delta)
      | Some p =>
          if bool_decide (Some n = root) then Some (None, delta)
          else match fuel with
               | O => None
               | S fuel' => Prev_ascend fuel' h root p (delta - 1)
               end
      end
  | Some s =>
      if bool_decide (Some n = root) then Some (None, delta)
      else Some (Some s, delta)
  end.

Definition Prev (fuel : nat) (h : heap) (n root : ptr)
  : option (ptr * Z) :=
  match n with
  | None => Some (None, 0)
  | Some l =>
      match LastChild (deref h l) with
      | Some c => Some (Some c, 0 + 1)
      | None => Prev_ascend fuel h root l 0
      end
  end.

(* ================================================================ *)
(** * Find and Flatten                                              *)
(* ================================================================ *)

Fixpoint Find_loop (fuel : nat) (h : heap) (root n2 n : ptr)
    (result : list loc) : option (list loc) :=
  match n with
  | None => Some result
  | Some l =>
      match fuel with
      | O => None
      | S fuel' =>
          b ← Match fuel h n n2;
          '(n', _) ← Next fuel h n root;
          Find_loop fuel' h root n2 n'
            (if b : bool then result ++ [l] else result)
      end
  end.

Definition Find (fuel : nat) (h : heap) (root : ptr) (fragment : string)
  : option (heap * list loc) :=
  '(h', n2) ← Leaf fuel h fragment;
  result ← Find_loop fuel h' root n2 root [];
  Some (h', result).

Fixpoint Flatten_loop (fuel : nat) (h : heap) (root n : ptr)
    (s : string) : option string :=
  match n with
  | None => Some s
  | Some l =>
      match fuel with
      | O => None
      | S fuel' =>
          let s' := if bool_decide (Type_ (deref h l) = TextNode)
                    then s +:+ Data (deref h l) else s in
          '(n', _) ← Next fuel h n root;
          Flatten_loop fuel' h root n' s'
      end
  end.

Definition Flatten (fuel : nat) (h : heap) (root : ptr) : option string :=
  Flatten_loop fuel h root root "".

(* ================================================================ *)
(** * String and PrintTree                                          *)
(* ================================================================ *)

(** The slice expression [s[:k]] on a string: [None] stands for the
    run-time panic "slice bounds out of range". *)
Definition slice_to (s : string) (k : Z) : option string :=
  if (k <? 0) || (Z.of_nat (String.length s) <? k) then None
  else Some (String.substring 0 (Z.to_nat k) s).

Definition nl : string := String (ascii_of_nat 10) "".
Definition esc : string := String (ascii_of_nat 27) "".

(** [strings.Split(str, "\n")]. *)
Fixpoint Split_nl (str : string) : list string :=
  match str with
  | EmptyString => [""]
  | String c str' =>
      if bool_decide (c = ascii_of_nat 10) then "" :: Split_nl str'
      else match Split_nl str' with
           | [] => [String c ""]
           | s :: ss => String c s :: ss
           end
  end.

(** [strings.Trim(s, "\r\n\t ")].  The cut set is ASCII, so trimming
    bytes agrees with trimming code points. *)
Definition in_cutset (c : ascii) : bool :=
  bool_decide (c = ascii_of_nat 13) || bool_decide (c = ascii_of_nat 10)
  || bool_decide (c = ascii_of_nat 9) || bool_decide (c = ascii_of_nat 32).

Fixpoint TrimLeft (s : string) : string :=
  match s with
  | EmptyString => ""
  | String c s' => if in_cutset c then TrimLeft s' else s
  end.

Definition Trim (s : string) : string :=
  String.rev (TrimLeft (String.rev (TrimLeft s))).

(** The closure [c] of [String]: [None] is the panic of the slice
    expression [cs[:len(cs)-1]]. *)
Definition String_c (colour : bool) (str col : string) : option string :=
  if colour then
    let rst := esc +:+ "[0m" in
    let cs :=
      foldl (fun cs s => cs +:+ col +:+ s +:+ rst +:+ nl) ""
            (Split_nl str) in
    slice_to cs (Z.of_nat (String.length cs) - 1)
  else Some str.

(** The loop over [n.Attr] in the [html.ElementNode] case. *)
Fixpoint String_attrs (colour : bool) (al : list Attribute)
    (attrs : string) : option string :=
  match al with
  | [] => Some attrs
  | a :: al' =>
      name ← String_c colour (Key a) (esc +:+ "[33m");
      let sVal := Sprintf_v (Val a) in
      name' ← (if bool_decide (AttrNamespace a ≠ "")
               then ns ← String_c colour (AttrNamespace a) (esc +:+ "[33m");
                    Some (ns +:+ ":" +:+ name)
               else Some name);
      v ← String_c colour sVal (esc +:+ "[36m");
      String_attrs colour al' (attrs +:+ " " +:+ name' +:+ "=" +:+ v)
  end.

(** [String].  The last case is the [return ""] after the [switch],
    reached by the values of [html.NodeType] that are none of the six
    constants. *)
Definition String_ (h : heap) (n : ptr) (colour : bool) : option string :=
  match n with
  | None => Some ""
  | Some l =>
      let nd := deref h l in
      let red := esc +:+ "[31m" in
      let gre := esc +:+ "[32m" in
      let blu := esc +:+ "[34m" in
      let mag := esc +:+ "[35m" in
      let c := String_c colour in
      match Type_ nd with
      | ErrorNode =>
          x ← c "X " mag; y ← c (Data nd) blu; Some (x +:+ y)
      | TextNode =>
          x ← c "T " mag; Some (x +:+ Data nd)
      | DocumentNode =>
          x ← c "R " mag; y ← c (Data nd) blu; Some (x +:+ y)
      | ElementNode =>
          attrs ← String_attrs colour (Attr nd) "";
          name ← c (Data nd) red;
          name' ← (if bool_decide (Namespace nd ≠ "")
                   then ns ← c (Namespace nd) red;
                        Some (ns +:+ ":" +:+ name)
                   else Some name);
          x ← c "E " mag; Some (x +:+ name' +:+ attrs)
      | CommentNode =>
          x ← c "C " mag; y ← c (Data nd) gre; Some (x +:+ y)
      | DoctypeNode =>
          x ← c "D " mag; y ← c (Data nd) blu; Some (x +:+ y)
      | OtherType _ => Some ""
      end
  end.

(** What a call of [PrintTree] can end in: a return with the writer
    as it was left and the error value, a run-time panic, or the
    fuel running out. *)
Inductive PrintTree_result :=
  | PT_return (w : W) (err : option error)
  | PT_panic
  | PT_starved.

(** [for delta < 0 { indent = indent[:len(indent)-2]; delta++ }],
    which runs [-delta] times. *)
Fixpoint PrintTree_unindent (k : nat) (indent : string) : option string :=
  match k with
  | O => Some indent
  | S k' =>
      indent' ← slice_to indent (Z.of_nat (String.length indent) - 2);
      PrintTree_unindent k' indent'
  end.

(** The first half of a turn of the loop of [PrintTree] at the node
    [l]: the line is written unless the node is a text node of white
    space only, and a write error ends the call. *)
Definition PrintTree_print (h : heap) (colour : bool) (w : W)
    (indent : string) (l : loc) : PrintTree_result + W :=
  if negb (bool_decide (Type_ (deref h l) = TextNode))
     || negb (bool_decide (Trim (Data (deref h l)) = ""))
  then match String_ h (Some l) colour with
       | None => inl PT_panic
       | Some line =>
           match Fprintf w (indent +:+ line +:+ nl) with
           | (w', Some err) => inl (PT_return w' (Some err))
           | (w', None) => inr w'
           end
       end
  else inr w.

(** The second half: the step to the next node and the update of the
    indentation. *)
Definition PrintTree_advance (fuel : nat) (h : heap) (root : ptr)
    (w : W) (indent : string) (l : loc)
  : PrintTree_result + (W * string * ptr) :=
  match Next fuel h (Some l) root with
  | None => inl PT_starved
  | Some (n', delta) =>
      if bool_decide (delta = 1) then inr (w, indent +:+ "  ", n')
      else match PrintTree_unindent (Z.to_nat (- delta)) indent with
           | None => inl PT_panic
           | Some indent' => inr (w, indent', n')
           end
  end.

(** One turn of the loop: either the call ends, or the loop goes on
    with a new writer state, a new indentation and the next node. *)
Definition PrintTree_body (fuel : nat) (h : heap) (root : ptr)
    (colour : bool) (w : W) (indent : string) (l : loc)
  : PrintTree_result + (W * string * ptr) :=
  match PrintTree_print h colour w indent l with
  | inl r => inl r
  | inr w' => PrintTree_advance fuel h root w' indent l
  end.

Fixpoint PrintTree_loop (fuel : nat) (h : heap) (root : ptr)
    (colour : bool) (w : W) (indent : string) (n : ptr)
  : PrintTree_result :=
  match n with
  | None => PT_return w None
  | Some l =>
      match fuel with
      | O => PT_starved
      | S fuel' =>
          match PrintTree_body fuel h root colour w indent l with
          | inl r => r
          | inr (w', indent', n') =>
              PrintTree_loop fuel' h root colour w' indent' n'
          end
      end
  end.

Definition PrintTree (fuel : nat) (h : heap) (w : W) (root : ptr)
    (colour : bool) : PrintTree_result :=
  PrintTree_loop fuel h root colour w "" root.

(** The states at the head of the loop that a call of [PrintTree] with
    the fuel [fuel0] goes through: the fuel left, the writer, the
    indentation and the current node. *)
Inductive PrintTree_at (fuel0 : nat) (h : heap) (root : ptr)
    (colour : bool) (w0 : W) : nat -> W -> string -> ptr -> Prop :=
  | at_init : PrintTree_at fuel0 h root colour w0 fuel0 w0 "" root
  | at_step fuel w indent l w' indent' n' :
      PrintTree_at fuel0 h root colour w0 (S fuel) w indent (Some l) ->
      PrintTree_body (S fuel) h root colour w indent l
        = inr (w', indent', n') ->
      PrintTree_at fuel0 h root colour w0 fuel w' indent' n'.

End Collaborators.

Arguments PT_return {error W} w err.
Arguments PT_panic {error W}.
Arguments PT_starved {error W}.
Arguments PrintTree_print {error W} Fprintf Sprintf_v h colour w indent l.
Arguments PrintTree_advance {error W} fuel h root w indent l.
Arguments PrintTree_body {error W} Fprintf Sprintf_v fuel h root colour
  w indent l.
Arguments PrintTree_loop {error W} Fprintf Sprintf_v fuel h root colour
  w indent n.
Arguments PrintTree {error W} Fprintf Sprintf_v fuel h w root colour.
Arguments PrintTree_at {error W} Fprintf Sprintf_v fuel0 h root colour w0
  _ _ _ _.
Arguments Leaf {error} ParseFragment fuel h fragment.
Arguments Find {error} ParseFragment fuel h root fragment.

(* ================================================================== *)
(** * Trees laid out in the heap                                       *)
(* ================================================================== *)

(** The abstract tree a subgraph of the heap represents: every node is
    named by its location and lists its children in order. *)
#[local] Set Warnings "-register-all".
Inductive tree := Tr (l : loc) (kids : list tree).

Definition tloc (t : tree) : loc := match t with Tr l _ => l end.
Definition tkids (t : tree) : list tree := match t with Tr _ ks => ks end.

Fixpoint preorder (t : tree) : list loc :=
  match t with Tr l ks => l :: flat_map preorder ks end.

Fixpoint postorder (t : tree) : list loc :=
  match t with Tr l ks => flat_map postorder ks ++ [l] end.

(** Pre-order with the depth of every node, the root being at [d]. *)
Fixpoint preorder_d (d : Z) (t : tree) : list (loc * Z) :=
  match t with Tr l ks => (l, d) :: flat_map (preorder_d (d + 1)) ks end.

(** The mirror image: the children of every node in reverse order. *)
Fixpoint mirror (t : tree) : tree :=
  match t with Tr l ks => Tr l (rev (map mirror ks)) end.

Fixpoint height (t : tree) : nat :=
  match t with
  | Tr _ ks => foldr (fun k m => Nat.max (S (height k)) m) O ks
  end.

(** The length of the path from the root to the last node in
    pre-order, which follows [LastChild] all the way down. *)
Fixpoint spine (t : tree) : nat :=
  match t with
  | Tr _ ks =>
      (fix go (ks : list tree) : nat :=
         match ks with
         | [] => O
         | [k] => S (spine k)
         | _ :: ks' => go ks'
         end) ks
  end.

(** The pointer that follows the siblings [ks]: the first of them, or
    [next] when there are none. *)
Definition first_or (next : ptr) (ks : list tree) : ptr :=
  match ks with [] => next | k :: _ => Some (tloc k) end.

(** The tree invariants of [html.Node]: [shape h par prev next t] says
    that the heap holds the tree [t] with the given parent and sibling
    links at its root, that the first and last child links of every
    node are the ends of its child list, and that the sibling links
    chain the children of a node in order ([sibs]). *)
Inductive shape (h : heap) : ptr -> ptr -> ptr -> tree -> Prop :=
  | shape_Tr par prev next l ks nd :
      h !! l = Some nd ->
      Parent nd = par ->
      PrevSibling nd = prev ->
      NextSibling nd = next ->
      FirstChild nd = first_or None ks ->
      LastChild nd = first_or None (rev ks) ->
      sibs h (Some l) None None ks ->
      shape h par prev next (Tr l ks)
with sibs (h : heap) : ptr -> ptr -> ptr -> list tree -> Prop :=
  | sibs_nil par prev next : sibs h par prev next []
  | sibs_cons par prev next k ks :
      shape h par prev (first_or next ks) k ->
      sibs h par (Some (tloc k)) next ks ->
      sibs h par prev next (k :: ks).

(** Mutual induction over [shape] and [sibs]. *)
Scheme shape_sibs_shape := Minimality for shape Sort Prop
  with shape_sibs_sibs := Minimality for sibs Sort Prop.
Combined Scheme shape_sibs_ind from shape_sibs_shape, shape_sibs_sibs.

(** A subtree: a shape whose nodes are pairwise distinct (no node is
    reachable along two paths of child links). *)
Definition is_tree (h : heap) (t : tree) : Prop :=
  (exists par prev next, shape h par prev next t) /\ NoDup (preorder t).

(** Swapping the roles of first and last child and of next and previous
    sibling in every node of the heap. *)
Definition flipNode (nd : Node) : Node :=
  mkNode (Parent nd) (LastChild nd) (FirstChild nd)
         (NextSibling nd) (PrevSibling nd)
         (Type_ nd) (Data nd) (Namespace nd) (Attr nd).

Definition flip (h : heap) : heap := flipNode <$> h.

(** The nodes visited by calling [Next] repeatedly from [n] until it
    returns nil, each with the delta [Next] returned at it; the last
    entry is the step that found the traversal exhausted. *)
Fixpoint forward (fuel : nat) (h : heap) (root n : ptr)
  : option (list (loc * Z)) :=
  match n with
  | None => Some []
  | Some l =>
      match fuel with
      | O => None
      | S fuel' =>
          '(n', delta) ← Next fuel h n root;
          tr ← forward fuel' h root n';
          Some ((l, delta) :: tr)
      end
  end.

(** The same with [Prev]. *)
Fixpoint backward (fuel : nat) (h : heap) (root n : ptr)
  : option (list (loc * Z)) :=
  match n with
  | None => Some []
  | Some l =>
      match fuel with
      | O => None
      | S fuel' =>
          '(n', delta) ← Prev fuel h n root;
          tr ← backward fuel' h root n';
          Some ((l, delta) :: tr)
      end
  end.

(** The text of the [html.TextNode]s among the nodes [ls], in order. *)
Fixpoint text_of (h : heap) (ls : list loc) : string :=
  match ls with
  | [] => ""
  | l :: ls' =>
      (if bool_decide (Type_ (deref h l) = TextNode)
       then Data (deref h l) else "") +:+ text_of h ls'
  end.

(** Concatenation of a list of strings, without separators. *)
Definition concat_str (ss : list string) : string :=
  foldr String.append "" ss.

(** The first node of a list of nodes with depths, or the end. *)
Definition hd_or (xs : list (loc * Z)) (e : ptr) (ed : Z) : ptr * Z :=
  match xs with [] => (e, ed) | (y, dy) :: _ => (Some y, dy) end.

(** The expected answers of [Next] along a list of nodes with their
    depths: at every node but the last, the next node of the list and
    the difference of the depths; at the last one, [e] and the
    difference to [ed]. *)
Fixpoint linked (F : nat) (h : heap) (root : ptr)
    (xs : list (loc * Z)) (e : ptr) (ed : Z) : Prop :=
  match xs with
  | [] => True
  | (x, dx) :: xs' =>
      Next F h (Some x) root
        = Some (match xs' with
                | [] => (e, ed - dx)
                | (y, dy) :: _ => (Some y, dy - dx)
                end)
      /\ linked F h root xs' e ed
  end.

(** The deltas along such a list. *)
Fixpoint deltas (xs : list (loc * Z)) (ed : Z) : list (loc * Z) :=
  match xs with
  | [] => []
  | (x, dx) :: xs' =>
      (x, match xs' with [] => ed - dx | (_, dy) :: _ => dy - dx end)
        :: deltas xs' ed
  end.

Definition sumZ (zs : list Z) : Z := foldr Z.add 0 zs.

(* ================================================================== *)
(** * Attr, AttrNS, NextSibElt, PrevSibElt and Print                   *)
(* ================================================================== *)

(** The loop of [Attr] over [n.Attr]. *)
Fixpoint Attr_loop (attrs : list Attribute) (key : string) : string * bool :=
  match attrs with
  | [] => ("", false)
  | a :: attrs' =>
      if bool_decide (Key a = key) then (Val a, true)
      else Attr_loop attrs' key
  end.

(** [Attr]; the name of the field [n.Attr] is taken, hence [Attr_]. *)
Definition Attr_ (h : heap) (n : ptr) (key : string) : string * bool :=
  match n with
  | None => ("", false)
  | Some l => Attr_loop (Attr (deref h l)) key
  end.

Fixpoint AttrNS_loop (attrs : list Attribute) (namespace key : string)
  : string * bool :=
  match attrs with
  | [] => ("", false)
  | a :: attrs' =>
      if bool_decide (Key a = key) && bool_decide (AttrNamespace a = namespace)
      then (Val a, true)
      else AttrNS_loop attrs' namespace key
  end.

Definition AttrNS (h : heap) (n : ptr) (namespace key : string)
  : string * bool :=
  match n with
  | None => ("", false)
  | Some l => AttrNS_loop (Attr (deref h l)) namespace key
  end.

(** The loop [for n.NextSibling != nil] of [NextSibElt] and the return
    after it; [None] is the fuel running out. *)
Fixpoint NextSibElt_loop (fuel : nat) (h : heap) (n : loc) : option ptr :=
  match NextSibling (deref h n) with
  | None => Some None
  | Some s =>
      if bool_decide (Type_ (deref h s) = ElementNode) then Some (Some s)
      else match fuel with
           | O => None
           | S fuel' => NextSibElt_loop fuel' h s
           end
  end.

Definition NextSibElt (fuel : nat) (h : heap) (n : ptr) : option ptr :=
  match n with
  | None => Some None
  | Some l => NextSibElt_loop fuel h l
  end.

Fixpoint PrevSibElt_loop (fuel : nat) (h : heap) (n : loc) : option ptr :=
  match PrevSibling (deref h n) with
  | None => Some None
  | Some s =>
      if bool_decide (Type_ (deref h s) = ElementNode) then Some (Some s)
      else match fuel with
           | O => None
           | S fuel' => PrevSibElt_loop fuel' h s
           end
  end.

Definition PrevSibElt (fuel : nat) (h : heap) (n : ptr) : option ptr :=
  match n with
  | None => Some None
  | Some l => PrevSibElt_loop fuel h l
  end.

(** [Print]: [PrintTree] on [os.Stdout], here the writer state
    [stdout], with colours. *)
Definition Print {error W : Type} (Fprintf : W -> string -> W * option error)
    (Sprintf_v : string -> string) (fuel : nat) (h : heap) (stdout : W)
    (root : ptr) : PrintTree_result error W :=
  PrintTree Fprintf Sprintf_v fuel h stdout root true.

(* ================================================================== *)
(** * Notions for stating what the functions compute                   *)
(* ================================================================== *)

(** The leaf reached from the root by following first children. *)
Fixpoint leftmost (t : tree) : loc :=
  match t with
  | Tr l [] => l
  | Tr _ (k :: _) => leftmost k
  end.

(** The element nodes among a list of subtrees. *)
Definition is_elt (h : heap) (k : tree) : bool :=
  bool_decide (Type_ (deref h (tloc k)) = ElementNode).

(** The nodes among [ls] that match the probe [n2], the fuel for
    [Match] being [fuel]. *)
Definition matching (fuel : nat) (h : heap) (n2 : ptr) (ls : list loc)
  : list loc :=
  filter (fun l => Match fuel h (Some l) n2 = Some true) ls.

(** A string made of characters of the cut set of [PrintTree] only. *)
Fixpoint all_blank (s : string) : bool :=
  match s with
  | EmptyString => true
  | String c s' => in_cutset c && all_blank s'
  end.

(** The nodes [PrintTree] writes a line for. *)
Definition printed (h : heap) (l : loc) : bool :=
  negb (bool_decide (Type_ (deref h l) = TextNode))
  || negb (all_blank (Data (deref h l))).

(** The indentation at depth [d]: [d] times two spaces. *)
Fixpoint indent_of (d : nat) : string :=
  match d with
  | O => ""
  | S d' => "  " +:+ indent_of d'
  end.

(** The lines [PrintTree] hands to the writer for a list of nodes with
    their depths. *)
Definition render (Sprintf_v : string -> string) (h : heap) (colour : bool)
    (xs : list (loc * Z)) : list string :=
  map (fun p : loc * Z =>
         indent_of (Z.to_nat p.2)
         +:+ default "" (String_ Sprintf_v h (Some p.1) colour) +:+ nl)
      (filter (fun p : loc * Z => printed h p.1 = true) xs).

(** Writing lines one after the other until the writer fails. *)
Fixpoint write_lines {error W : Type}
    (Fprintf : W -> string -> W * option error) (w : W)
    (lines : list string) : W * option error :=
  match lines with
  | [] => (w, None)
  | s :: lines' =>
      match Fprintf w s with
      | (w', Some err) => (w', Some err)
      | (w', None) => write_lines Fprintf w' lines'
      end
  end.

(** The letter [String] puts first for each of the six node types. *)
Definition type_letter (ty : NodeType) : string :=
  match ty with
  | ErrorNode => "X"
  | TextNode => "T"
  | DocumentNode => "R"
  | ElementNode => "E"
  | CommentNode => "C"
  | DoctypeNode => "D"
  | OtherType _ => ""
  end.

(* ================================================================== *)
(** * Example heaps                                                    *)
(* ================================================================== *)

Local Open Scope positive_scope.

(** A document [<body><div id="menu"><a href="/doc/">Documents</a>
    <a href="/pkg/">Packages</a></div></body>] at the locations 1 to 6
    (the [div] is 2, the links are 3 and 4, their texts 5 and 6), the
    probe tree of the fragment [<div><a>] at 7 and 8, and a probe tree
    [<html><body>] at 9 and 10. *)
Definition ex_doc : heap :=
  list_to_map
    [ (1, mkNode None (Some 2) (Some 2) None None
                     ElementNode "body" "" []);
      (2, mkNode (Some 1) (Some 3) (Some 4) None None
                     ElementNode "div" "" [mkAttribute "" "id" "menu"]);
      (3, mkNode (Some 2) (Some 5) (Some 5) None (Some 4)
                     ElementNode "a" "" [mkAttribute "" "href" "/doc/"]);
      (4, mkNode (Some 2) (Some 6) (Some 6) (Some 3) None
                     ElementNode "a" "" [mkAttribute "" "href" "/pkg/"]);
      (5, mkNode (Some 3) None None None None
                     TextNode "Documents" "" []);
      (6, mkNode (Some 4) None None None None
                     TextNode "Packages" "" []);
      (7, mkNode None (Some 8) (Some 8) None None
                     ElementNode "div" "" []);
      (8, mkNode (Some 7) None None None None
                     ElementNode "a" "" []);
      (9, mkNode None (Some 10) (Some 10) None None
                     ElementNode "html" "" []);
      (10, mkNode (Some 9) None None None None
                     ElementNode "body" "" []) ].

Definition ex_tree : tree :=
  Tr 1 [Tr 2 [Tr 3 [Tr 5 []]; Tr 4 [Tr 6 []]]].

(** A [div] with one child [a]. *)
Definition ex_pair : heap :=
  list_to_map
    [ (1, mkNode None (Some 2) (Some 2) None None
                     ElementNode "div" "" []);
      (2, mkNode (Some 1) None None None None
                     ElementNode "a" "" []) ].

Definition ex_pair_tree : tree := Tr 1 [Tr 2 []].

(** A single text node. *)
Definition ex_text : heap :=
  list_to_map
    [ (1, mkNode None None None None None TextNode "x" "" []) ].

Definition ex_text_tree : tree := Tr 1 [].

(** Two [p] elements: one with the attributes a=1 and b=2, one with
    a=1 only. *)
Definition ex_attrs : heap :=
  list_to_map
    [ (1, mkNode None None None None None ElementNode "p" ""
                     [mkAttribute "" "a" "1"; mkAttribute "" "b" "2"]);
      (2, mkNode None None None None None ElementNode "p" ""
                     [mkAttribute "" "a" "1"]) ].

(** A list [<ul>] at 1 with the children: white space (2), [<li>a</li>]
    (3, its text at 7), white space (4), an empty [<li>] (5) and a
    comment (6). *)
Definition ex_list : heap :=
  list_to_map
    [ (1, mkNode None (Some 2) (Some 6) None None ElementNode "ul" "" []);
      (2, mkNode (Some 1) None None None (Some 3)
            TextNode (String (ascii_of_nat 10) "  ") "" []);
      (3, mkNode (Some 1) (Some 7) (Some 7) (Some 2) (Some 4)
            ElementNode "li" "" [mkAttribute "" "class" "x"]);
      (4, mkNode (Some 1) None None (Some 3) (Some 5) TextNode " " "" []);
      (5, mkNode (Some 1) None None (Some 4) (Some 6)
            ElementNode "li" "" []);
      (6, mkNode (Some 1) None None (Some 5) None CommentNode "end" "" []);
      (7, mkNode (Some 3) None None None None TextNode "a" "" []) ].

Definition ex_list_tree : tree :=
  Tr 1 [Tr 2 []; Tr 3 [Tr 7 []]; Tr 4 []; Tr 5 []; Tr 6 []].

(** The probe tree of [ex_doc]. *)
Definition ex_probe_tree : tree := Tr 7 [Tr 8 []].

(** Four [p] elements whose attribute lists are: a=1, b=2; then b=2,
    a=1, a=1; then a=1; then a=1, a=1. *)
Definition ex_dups : heap :=
  list_to_map
    [ (1, mkNode None None None None None ElementNode "p" ""
            [mkAttribute "" "a" "1"; mkAttribute "" "b" "2"]);
      (2, mkNode None None None None None ElementNode "p" ""
            [mkAttribute "" "b" "2"; mkAttribute "" "a" "1";
             mkAttribute "" "a" "1"]);
      (3, mkNode None None None None None ElementNode "p" ""
            [mkAttribute "" "a" "1"]);
      (4, mkNode None None None None None ElementNode "p" ""
            [mkAttribute "" "a" "1"; mkAttribute "" "a" "1"]) ].



(** A parser that rejects every fragment, one that returns the probe
    tree of [ex_doc], and a writer that records the lines and never
    fails. *)
Definition ex_parse_fail (h : heap) (fragment : string) (ctx : loc)
  : heap * list ptr * option unit := (h, [], Some tt).

Definition ex_parse_probe (h : heap) (fragment : string) (ctx : loc)
  : heap * list ptr * option unit := (ex_doc, [Some 7], None).

Definition ex_Fprintf (w : list string) (s : string)
  : list string * option unit := (app w [s], None).

Local Close Scope positive_scope.

(* ================================================================== *)
(** * Properties                                                       *)
(* ================================================================== *)

(** ** Compare *)

Lemma attr_set_acc (attrs : list Attribute) (am : gset Attribute) a :
  a ∈ foldl (fun am a => {[ a ]} ∪ am) am attrs <-> a ∈ am \/ a ∈ attrs.
Proof.
  revert am. induction attrs as [|b attrs IH]; intros am; simpl.
  - rewrite elem_of_nil. tauto.
  - rewrite IH, elem_of_union, elem_of_singleton, elem_of_cons. tauto.
Qed.

Lemma elem_of_attr_set (attrs : list Attribute) a :
  a ∈ attr_set attrs <-> a ∈ attrs.
Proof.
  unfold attr_set. rewrite attr_set_acc, elem_of_empty. tauto.
Qed.

Lemma attrs_in_true (am : gset Attribute) (attrs : list Attribute) :
  attrs_in am attrs = true <-> forall a, a ∈ attrs -> a ∈ am.
Proof.
  induction attrs as [|b attrs IH]; simpl.
  - split; [intros _ a Ha; by apply elem_of_nil in Ha | done].
  - destruct (bool_decide_reflect (b ∈ am)) as [Hb|Hb].
    + rewrite IH. split.
      * intros Hall a Ha. apply elem_of_cons in Ha as [->|Ha]; auto.
      * intros Hall a Ha. apply Hall. by right.
    + split; [done|]. intros Hall. destruct Hb. apply Hall. by left.
Qed.

Lemma Compare_true (h : heap) (n1 n2 : ptr) :
  Compare h n1 n2 = true <->
  exists l1 l2,
    n1 = Some l1 /\ n2 = Some l2 /\
    Type_ (deref h l1) = Type_ (deref h l2) /\
    Data (deref h l1) = Data (deref h l2) /\
    Namespace (deref h l1) = Namespace (deref h l2) /\
    forall a, a ∈ Attr (deref h l2) -> a ∈ Attr (deref h l1).
Proof.
  destruct n1 as [l1|], n2 as [l2|]; simpl;
    try (split; [done | by intros (? & ? & ? & ? & _)]).
  destruct (bool_decide_reflect (Type_ (deref h l1) = Type_ (deref h l2)));
    destruct (bool_decide_reflect (Data (deref h l1) = Data (deref h l2)));
    destruct (bool_decide_reflect
                (Namespace (deref h l1) = Namespace (deref h l2)));
    simpl;
    try (split; [done | intros (? & ? & [= <-] & [= <-] & ? & ? & ? & _);
                        congruence]).
  rewrite attrs_in_true. split.
  - intros Hall. exists l1, l2. repeat split; try done.
    intros a Ha. apply elem_of_attr_set. auto.
  - intros (? & ? & [= <-] & [= <-] & _ & _ & _ & Hall) a Ha.
    apply elem_of_attr_set. auto.
Qed.

Lemma Compare_type (h : heap) (n1 n2 : loc) :
  Type_ (deref h n1) <> Type_ (deref h n2) ->
  Compare h (Some n1) (Some n2) = false.
Proof.
  intros Hne. destruct (Compare h (Some n1) (Some n2)) eqn:E; [|done].
  apply Compare_true in E as (? & ? & [= <-] & [= <-] & ? & _). done.
Qed.

(** ** Match *)

Lemma Match_short_circuit (h : heap) (k : nat) :
  forall fuel n1 n2 c1 c2 a b,
    chain h n1 c1 -> chain h n2 c2 ->
    c1 !! k = Some a -> c2 !! k = Some b ->
    Compare h (Some a) (Some b) = false ->
    (k <= fuel)%nat ->
    Match fuel h n1 n2 = Some false.
Proof.
  induction k as [|k IH]; intros fuel n1 n2 c1 c2 a b H1 H2 Ha Hb Hcmp Hfuel.
  - destruct H1 as [|x c1 H1]; [done|]. destruct H2 as [|y c2 H2]; [done|].
    simpl in Ha, Hb. injection Ha as ->. injection Hb as ->.
    destruct fuel; simpl in *; by rewrite Hcmp.
  - destruct H1 as [|x c1 H1]; [done|]. destruct H2 as [|y c2 H2]; [done|].
    simpl in Ha, Hb. destruct fuel as [|fuel]; [lia|].
    cbn [Match]. destruct (Compare h (Some x) (Some y)); simpl; [|done].
    apply (IH fuel _ _ c1 c2 a b); auto with lia.
Qed.

Lemma Match_exhausted (h : heap) :
  forall n1 c1, chain h n1 c1 ->
  forall fuel n2 c2, chain h n2 c2 ->
    (forall k a b, c1 !! k = Some a -> c2 !! k = Some b ->
                   Compare h (Some a) (Some b) = true) ->
    (Nat.min (length c1) (length c2) <= fuel)%nat ->
    Match fuel h n1 n2 = Some (bool_decide (length c2 <= length c1)%nat).
Proof.
  induction 1 as [|x c1 H1 IH]; intros fuel n2 c2 H2 Hall Hfuel.
  - destruct H2 as [|y c2 H2]; destruct fuel; simpl; try done.
  - destruct H2 as [|y c2 H2].
    + destruct fuel; simpl; done.
    + simpl in Hfuel. destruct fuel as [|fuel]; [lia|].
      cbn [Match]. rewrite (Hall O x y); [simpl|done..].
      rewrite (IH fuel _ c2 H2).
      * f_equal. apply bool_decide_ext. simpl. lia.
      * intros k a b Ha Hb. apply (Hall (S k)); done.
      * lia.
Qed.

(** C1.  [Match] walks the two parent chains in lock-step.  A step at
    which both nodes are present and [Compare] fails makes the result
    false, and the walk needs no more turns than that step's index.
    When [Compare] holds at every step where both are present, the
    result is true if the chain of [n2] is not longer than that of [n1]
    (it is exhausted first or at the same time) and false if the chain
    of [n1] is strictly shorter. *)
Theorem Match_lockstep (h : heap) (n1 n2 : ptr) (c1 c2 : list loc) :
  chain h n1 c1 -> chain h n2 c2 ->
  (forall k a b,
      c1 !! k = Some a -> c2 !! k = Some b ->
      Compare h (Some a) (Some b) = false ->
      forall fuel, (k <= fuel)%nat -> Match fuel h n1 n2 = Some false)
  /\
  ((forall k a b,
       c1 !! k = Some a -> c2 !! k = Some b ->
       Compare h (Some a) (Some b) = true) ->
   forall fuel, (Nat.min (length c1) (length c2) <= fuel)%nat ->
     ((length c2 <= length c1)%nat -> Match fuel h n1 n2 = Some true) /\
     ((length c1 < length c2)%nat -> Match fuel h n1 n2 = Some false)).
Proof.
  intros H1 H2. split.
  - intros k a b Ha Hb Hcmp fuel Hfuel.
    by apply (Match_short_circuit h k fuel n1 n2 c1 c2 a b).
  - intros Hall fuel Hfuel.
    rewrite (Match_exhausted h n1 c1 H1 fuel n2 c2 H2 Hall Hfuel).
    split; intros Hlen; f_equal.
    + by apply bool_decide_eq_true.
    + apply bool_decide_eq_false. lia.
Qed.

(** C5, as the code has it.  With an absent candidate [n1], [Match]
    returns false when the probe [n2] is present and true when the
    probe is absent as well; in both cases it returns, whatever the
    heap and without taking a step. *)
Theorem Match_nil_candidate (fuel : nat) (h : heap) (n2 : ptr) :
  Match fuel h None n2 = Some (bool_decide (n2 = None)).
Proof.
  destruct fuel, n2; done.
Qed.

(** C5 as stated fails: with both nodes absent [Match] returns true. *)
Lemma Match_nil_nil_true :
  Match O ∅ None None = Some true /\ Match O ∅ None None <> Some false.
Proof.
  split; [reflexivity | discriminate].
Qed.

(** C7.  [Compare] is reflexive on every present node: the attribute
    list of a node is always covered by the set built from that same
    list, duplicates included. *)
Theorem Compare_refl (h : heap) (n : loc) :
  Compare h (Some n) (Some n) = true.
Proof.
  apply Compare_true. exists n, n. repeat split; auto.
Qed.

(** ** Leaf *)

Lemma deref_alloc (h : heap) (nd : Node) :
  deref (alloc h nd).1 (alloc h nd).2 = nd.
Proof.
  unfold deref, alloc. simpl. by rewrite lookup_insert_eq.
Qed.

Lemma Leaf_descend_leaf (fuel : nat) (h : heap) :
  forall n n', Leaf_descend fuel h n = Some n' ->
               FirstChild (deref h n') = None.
Proof.
  induction fuel as [|fuel IH]; intros n n'; simpl;
    destruct (FirstChild (deref h n)) eqn:E; try done.
  - by intros [= <-].
  - apply IH.
  - by intros [= <-].
Qed.

(** The descent ends as soon as the fuel covers the length of the chain
    of first children. *)
Lemma Leaf_descend_returns (h : heap) (k : nat) :
  forall n, FirstChild (deref h (Nat.iter k
              (fun l => default l (FirstChild (deref h l))) n)) = None ->
  forall fuel, (k <= fuel)%nat -> is_Some (Leaf_descend fuel h n).
Proof.
  induction k as [|k IH]; intros n Hk fuel Hfuel.
  - simpl in Hk. destruct fuel; simpl; rewrite Hk; eauto.
  - destruct fuel as [|fuel]; [lia|]. simpl.
    destruct (FirstChild (deref h n)) as [c|] eqn:E; [|eauto].
    apply IH; [|lia]. rewrite <- Hk. f_equal.
    rewrite Nat.iter_succ_r. by rewrite E.
Qed.

(** C9.  Whenever [Leaf] returns a present node, that node has no
    first child. *)
Theorem Leaf_no_first_child {error : Type}
    (ParseFragment : heap -> string -> loc -> heap * list ptr * option error)
    (fuel : nat) (h : heap) (fragment : string) (h' : heap) (n : loc) :
  Leaf ParseFragment fuel h fragment = Some (h', Some n) ->
  FirstChild (deref h' n) = None.
Proof.
  unfold Leaf.
  destruct (alloc h _) as [h1 ctx].
  destruct (ParseFragment h1 fragment ctx) as [[h2 ns] err].
  destruct (_ || _).
  - set (nd := mkNode None None None None None ErrorNode "" "" []).
    pose proof (deref_alloc h2 nd) as Hd.
    destruct (alloc h2 nd) as [h3 e]. simpl in Hd.
    intros [= <- <-]. by rewrite Hd.
  - destruct ns as [|[n0|] ns]; try done.
    destruct (Leaf_descend fuel h2 n0) as [n'|] eqn:E; [|done].
    intros [= <- <-]. by apply Leaf_descend_leaf in E.
Qed.

(** ** Next on a tree *)

Lemma tree_ind' (P : tree -> Prop) :
  (forall l ks, Forall P ks -> P (Tr l ks)) -> forall t, P t.
Proof.
  intros H. fix IH 1. intros [l ks]. apply H.
  induction ks as [|k ks IHks]; constructor; [apply IH | exact IHks].
Qed.

Lemma Next_ascend_mono (h : heap) (root : ptr) (F : nat) :
  forall F' n d r,
    Next_ascend F h root n d = Some r -> (F <= F')%nat ->
    Next_ascend F' h root n d = Some r.
Proof.
  induction F as [|F IH]; intros F' n d r; destruct F' as [|F'];
    cbn [Next_ascend];
    destruct (NextSibling (deref h n)); try destruct (Parent (deref h n));
    try destruct (bool_decide (Some n = root)); try done; try lia.
  intros Hr Hle. apply IH; [done|lia].
Qed.

Lemma Next_mono (h : heap) (n root : ptr) (F F' : nat) r :
  Next F h n root = Some r -> (F <= F')%nat -> Next F' h n root = Some r.
Proof.
  destruct n as [l|]; simpl; [|done].
  destruct (FirstChild (deref h l)); [done|]. apply Next_ascend_mono.
Qed.

Lemma linked_app (h : heap) (root : ptr) (F : nat) xs ys e ed :
  linked F h root xs (hd_or ys e ed).1 (hd_or ys e ed).2 ->
  linked F h root ys e ed ->
  linked F h root (xs ++ ys) e ed.
Proof.
  intros Hx Hy. induction xs as [|[x dx] xs IH]; [done|].
  destruct Hx as [H1 H2]. cbn [linked app]. split; [|by apply IH].
  rewrite H1. destruct xs as [|[x' dx'] xs]; [|done].
  cbn [app]. by destruct ys as [|[y dy] ys].
Qed.

Lemma preorder_d_hd (d : Z) (t : tree) :
  exists xs, preorder_d d t = (tloc t, d) :: xs.
Proof. destruct t as [l ks]. simpl. eauto. Qed.

Lemma preorder_d_fst (t : tree) : forall d, (preorder_d d t).*1 = preorder t.
Proof.
  induction t as [l ks IH] using tree_ind'. intros d. simpl. f_equal.
  induction IH as [|k ks Hk _ IHks]; [done|].
  simpl. rewrite fmap_app, Hk. by f_equal.
Qed.

Lemma height_kid (l : loc) (ks : list tree) (k : tree) :
  k ∈ ks -> (S (height k) <= height (Tr l ks))%nat.
Proof.
  simpl. induction 1; simpl; lia.
Qed.

Lemma shape_deref (h : heap) par prev next (t : tree) :
  shape h par prev next t ->
  Parent (deref h (tloc t)) = par /\
  PrevSibling (deref h (tloc t)) = prev /\
  NextSibling (deref h (tloc t)) = next /\
  FirstChild (deref h (tloc t)) = first_or None (tkids t) /\
  LastChild (deref h (tloc t)) = first_or None (rev (tkids t)).
Proof.
  inversion 1 as [? ? ? l ks nd Hl]; subst. simpl. unfold deref.
  rewrite Hl. simpl. done.
Qed.

(** Leaving a child that has a next sibling. *)
Lemma Next_ascend_sibling (h : heap) (root par prev : ptr) (k : tree)
    (y : loc) (G : nat) (d : Z) :
  shape h par prev (Some y) k -> Some (tloc k) <> root ->
  Next_ascend G h root (tloc k) d = Some (Some y, d + 0).
Proof.
  intros Hs Hroot. apply shape_deref in Hs as (_ & _ & Hn & _).
  destruct G; cbn [Next_ascend]; rewrite Hn, bool_decide_eq_false_2 by done;
    by rewrite Z.add_0_r.
Qed.

(** Leaving the last child goes on from its parent. *)
Lemma Next_ascend_last (h : heap) (root prev p : ptr) (k : tree)
    (l : loc) (G : nat) (up : Z) :
  shape h (Some l) prev None k -> Some (tloc k) <> root ->
  (forall d, Next_ascend G h root l d = Some (p, d + up)) ->
  forall d, Next_ascend (S G) h root (tloc k) d = Some (p, d + (up - 1)).
Proof.
  intros Hs Hroot Hup d. apply shape_deref in Hs as (Hp & _ & Hn & _).
  cbn [Next_ascend]. rewrite Hn, Hp, bool_decide_eq_false_2 by done.
  rewrite Hup. do 2 f_equal. lia.
Qed.

Lemma linked_tree (h : heap) (root : ptr) (F : nat) :
  forall t par prev next G d p up,
    shape h par prev next t ->
    (forall x, x ∈ flat_map preorder (tkids t) -> Some x <> root) ->
    (forall d', Next_ascend G h root (tloc t) d' = Some (p, d' + up)) ->
    (G + height t <= F)%nat ->
    linked F h root (preorder_d d t) p (d + up).
Proof.
  induction t as [l ks IH] using tree_ind'.
  intros par prev next G d p up Hs Hroot Hup HF.
  pose proof (shape_deref _ _ _ _ _ Hs) as (_ & _ & _ & Hfc & _).
  inversion Hs as [? ? ? ? ? nd Hl _ _ _ _ _ Hsibs]; subst.
  simpl in Hroot, Hup, Hfc. cbn [preorder_d linked].
  assert (Hkids : forall prev0,
             sibs h (Some l) prev0 None ks ->
             linked F h root (flat_map (preorder_d (d + 1)) ks) p (d + up)).
  { clear Hfc Hsibs Hs. pose proof (height_kid l ks) as Hh.
    induction IH as [|k ks Hk _ IHks]; intros prev0 Hsibs; [done|].
    inversion Hsibs as [|? ? ? ? ? Hsk Hsks]; subst. simpl.
    assert (Hrk : Some (tloc k) <> root).
    { apply Hroot. simpl. apply elem_of_app. left.
      destruct k; simpl; by left. }
    assert (Hrk' : forall x, x ∈ flat_map preorder (tkids k) ->
                             Some x <> root).
    { intros x Hx. apply Hroot. simpl. apply elem_of_app. left.
      destruct k; simpl in *; by right. }
    assert (Hhk : (S (height k) <= height (Tr l (k :: ks)))%nat)
      by (apply Hh; by left).
    apply linked_app.
    - destruct ks as [|k' ks'].
      + simpl. simpl in Hsk.
        replace (d + up) with (d + 1 + (up - 1)) by lia.
        apply (Hk (Some l) prev0 None (S G)); auto.
        * by apply (Next_ascend_last _ _ prev0 _ _ l).
        * lia.
      + simpl in Hsk. simpl.
        destruct (preorder_d_hd (d + 1) k') as [xs ->]. simpl.
        replace (d + 1) with (d + 1 + 0) at 2 by lia.
        apply (Hk (Some l) prev0 (Some (tloc k')) O); auto.
        * intros d'. by apply (Next_ascend_sibling _ _ (Some l) prev0).
        * lia.
    - apply (IHks) with (prev0 := Some (tloc k)).
      + intros x Hx. apply Hroot. simpl. apply elem_of_app. by right.
      + simpl in HF |- *. lia.
      + intros k0 Hk0. by apply height_kid.
      + done. }
  split; [|by apply (Hkids None)].
  simpl. rewrite Hfc. destruct ks as [|k ks]; simpl.
  - rewrite (Next_ascend_mono _ _ G F _ _ _ (Hup 0)) by lia.
    do 2 f_equal. lia.
  - destruct (preorder_d_hd (d + 1) k) as [xs ->]. simpl.
    do 2 f_equal. lia.
Qed.

Lemma linked_root (h : heap) (t : tree) :
  is_tree h t ->
  linked (height t) h (Some (tloc t)) (preorder_d 0 t) None 0.
Proof.
  intros [(par & prev & next & Hs) Hnd].
  replace 0 with (0 + 0) at 2 by lia.
  apply (linked_tree h _ _ t par prev next O); [done| | |lia].
  - intros x Hx [= ->]. destruct t as [l ks]. simpl in *.
    by apply NoDup_cons in Hnd as [Hnd _].
  - intros d'. simpl.
    destruct (NextSibling (deref h (tloc t)));
      try destruct (Parent (deref h (tloc t)));
      rewrite ?bool_decide_eq_true_2 by done; by rewrite Z.add_0_r.
Qed.

Lemma forward_linked (h : heap) (root : ptr) (F : nat) :
  forall xs ed fuel,
    linked F h root xs None ed ->
    (F + length xs <= fuel)%nat ->
    forward fuel h root (hd_or xs None ed).1 = Some (deltas xs ed).
Proof.
  induction xs as [|[x dx] xs IH]; intros ed fuel Hl Hfuel.
  - by destruct fuel.
  - destruct Hl as [H1 H2]. simpl in Hfuel.
    destruct fuel as [|fuel]; [lia|]. cbn [hd_or fst forward].
    rewrite (Next_mono _ _ _ F (S fuel) _ H1) by lia.
    specialize (IH ed fuel H2). cbn [deltas].
    destruct xs as [|[y dy] xs]; simpl in IH, Hfuel |- *.
    + rewrite IH by lia. done.
    + rewrite IH by lia. done.
Qed.

Lemma deltas_fst xs ed : (deltas xs ed).*1 = xs.*1.
Proof.
  induction xs as [|[x dx] xs IH]; [done|]. simpl. f_equal. apply IH.
Qed.

Lemma deltas_sum x dx xs ed :
  sumZ (deltas ((x, dx) :: xs) ed).*2 = ed - dx.
Proof.
  revert x dx. induction xs as [|[y dy] xs IH]; intros x dx.
  - simpl. unfold sumZ. simpl. lia.
  - specialize (IH y dy). unfold sumZ in *. cbn [deltas fmap list_fmap]
      in IH |- *. cbn [foldr snd] in IH |- *. lia.
Qed.

(** The fuel that suffices to traverse the tree [t]. *)
Lemma size_fuel (t : tree) fuel :
  (height t + length (preorder t) <= fuel)%nat ->
  (height t + length (preorder_d 0 t) <= fuel)%nat.
Proof.
  intros H. rewrite <- (preorder_d_fst t 0) in H.
  by rewrite length_fmap in H.
Qed.

Lemma forward_tree (h : heap) (t : tree) (fuel : nat) :
  is_tree h t ->
  (height t + length (preorder t) <= fuel)%nat ->
  forward fuel h (Some (tloc t)) (Some (tloc t))
  = Some (deltas (preorder_d 0 t) 0).
Proof.
  intros Ht Hfuel. pose proof (linked_root h t Ht) as Hl.
  pose proof (forward_linked h _ _ _ 0 fuel Hl (size_fuel _ _ Hfuel)) as Hf.
  destruct (preorder_d_hd 0 t) as [xs Hxs]. rewrite Hxs in Hf at 1.
  exact Hf.
Qed.

(** C4.  Over a complete forward traversal of a tree from its root,
    bounded by that root, the deltas returned by [Next], the one of the
    final step that returns nil included, add up to zero; the nodes
    visited are those of the tree in pre-order.  With an absent root
    the traversal is empty. *)
Theorem forward_deltas_sum_zero (h : heap) (t : tree) (fuel : nat) :
  is_tree h t ->
  (height t + length (preorder t) <= fuel)%nat ->
  exists tr,
    forward fuel h (Some (tloc t)) (Some (tloc t)) = Some tr /\
    tr.*1 = preorder t /\
    sumZ tr.*2 = 0 /\
    forward fuel h None None = Some [].
Proof.
  intros Ht Hfuel. exists (deltas (preorder_d 0 t) 0).
  split; [by apply forward_tree|]. split; [|split].
  - by rewrite deltas_fst, preorder_d_fst.
  - destruct (preorder_d_hd 0 t) as [xs ->]. rewrite deltas_sum. lia.
  - by destruct fuel.
Qed.

(** ** Flatten *)

Lemma append_cons (c : ascii) (s1 s2 : string) :
  String c s1 +:+ s2 = String c (s1 +:+ s2).
Proof. reflexivity. Qed.

Lemma append_nil_r (s : string) : s +:+ "" = s.
Proof.
  induction s as [|c s IH]; [done|]. by rewrite append_cons, IH.
Qed.

Lemma append_assoc (s1 s2 s3 : string) :
  (s1 +:+ s2) +:+ s3 = s1 +:+ (s2 +:+ s3).
Proof.
  induction s1 as [|c s1 IH]; [done|]. by rewrite !append_cons, IH.
Qed.

Lemma text_of_app (h : heap) (xs ys : list loc) :
  text_of h (xs ++ ys) = text_of h xs +:+ text_of h ys.
Proof.
  induction xs as [|x xs IH]; [done|]. simpl.
  by rewrite IH, append_assoc.
Qed.

Lemma text_of_kids (h : heap) (ks : list tree) :
  text_of h (flat_map preorder ks)
  = concat_str (map (fun k => text_of h (preorder k)) ks).
Proof.
  induction ks as [|k ks IH]; [done|]. simpl.
  by rewrite text_of_app, IH.
Qed.

Lemma Flatten_loop_linked (h : heap) (root : ptr) (F : nat) :
  forall xs ed fuel s,
    linked F h root xs None ed ->
    (F + length xs <= fuel)%nat ->
    Flatten_loop fuel h root (hd_or xs None ed).1 s
    = Some (s +:+ text_of h xs.*1).
Proof.
  induction xs as [|[x dx] xs IH]; intros ed fuel s Hl Hfuel.
  - destruct fuel; simpl; by rewrite append_nil_r.
  - destruct Hl as [H1 H2]. simpl in Hfuel.
    destruct fuel as [|fuel]; [lia|]. cbn [hd_or fst Flatten_loop].
    rewrite (Next_mono _ _ _ F (S fuel) _ H1) by lia.
    specialize (IH ed fuel). cbn [fmap list_fmap fst text_of].
    destruct xs as [|[y dy] xs]; simpl in IH, Hfuel |- *;
      rewrite IH by (done || lia);
      destruct (bool_decide (Type_ (deref h x) = TextNode));
      by rewrite ?append_assoc.
Qed.

Lemma Flatten_preorder (h : heap) (t : tree) (fuel : nat) :
  is_tree h t ->
  (height t + length (preorder t) <= fuel)%nat ->
  Flatten fuel h (Some (tloc t)) = Some (text_of h (preorder t)).
Proof.
  intros Ht Hfuel. pose proof (linked_root h t Ht) as Hl.
  pose proof (Flatten_loop_linked h _ _ _ 0 fuel "" Hl
                (size_fuel _ _ Hfuel)) as Hf.
  rewrite preorder_d_fst in Hf.
  destruct (preorder_d_hd 0 t) as [xs Hxs]. rewrite Hxs in Hf.
  exact Hf.
Qed.

Lemma sibs_shape (h : heap) (par prev next : ptr) (ks : list tree) :
  sibs h par prev next ks ->
  forall k, k ∈ ks -> exists prev' next', shape h par prev' next' k.
Proof.
  induction 1 as [|par prev next k ks Hk _ IH]; intros k' Hin.
  - by apply elem_of_nil in Hin.
  - apply elem_of_cons in Hin as [->|Hin]; eauto.
Qed.

Lemma NoDup_flat_map_kid (ks : list tree) (k : tree) :
  NoDup (flat_map preorder ks) -> k ∈ ks -> NoDup (preorder k).
Proof.
  induction ks as [|k' ks IH]; intros Hnd Hin.
  - by apply elem_of_nil in Hin.
  - simpl in Hnd. apply NoDup_app in Hnd as (H1 & _ & H2).
    apply elem_of_cons in Hin as [->|Hin]; auto.
Qed.

Lemma is_tree_kid (h : heap) (l : loc) (ks : list tree) (k : tree) :
  is_tree h (Tr l ks) -> k ∈ ks -> is_tree h k.
Proof.
  intros [(par & prev & next & Hs) Hnd] Hin. split.
  - inversion Hs as [? ? ? ? ? nd _ _ _ _ _ _ Hsibs]; subst.
    destruct (sibs_shape _ _ _ _ _ Hsibs k Hin) as (prev' & next' & Hk).
    eauto.
  - simpl in Hnd. apply NoDup_cons in Hnd as [_ Hnd].
    by apply (NoDup_flat_map_kid ks).
Qed.

Lemma length_flat_map_kid (ks : list tree) (k : tree) :
  k ∈ ks -> (length (preorder k) <= length (flat_map preorder ks))%nat.
Proof.
  induction 1; simpl; rewrite length_app; lia.
Qed.

Lemma fuel_kid (l : loc) (ks : list tree) (k : tree) (fuel : nat) :
  k ∈ ks ->
  (height (Tr l ks) + length (preorder (Tr l ks)) <= fuel)%nat ->
  (height k + length (preorder k) <= fuel)%nat.
Proof.
  intros Hin Hfuel. pose proof (height_kid l ks k Hin).
  pose proof (length_flat_map_kid ks k Hin). simpl in *. lia.
Qed.

(** C8, as the code has it.  [Flatten] of a subtree is the payload of
    the root itself when the root is of type [html.TextNode], followed
    by the concatenation, in child order and without separators, of
    [Flatten] of each child; equivalently it is the concatenation, in
    pre-order, of the payloads of the text nodes of the subtree. *)
Theorem Flatten_children (h : heap) (l : loc) (ks : list tree)
    (fuel : nat) :
  is_tree h (Tr l ks) ->
  (height (Tr l ks) + length (preorder (Tr l ks)) <= fuel)%nat ->
  exists parts,
    Forall2 (fun k s => Flatten fuel h (Some (tloc k)) = Some s) ks parts /\
    Flatten fuel h (Some l)
    = Some ((if bool_decide (Type_ (deref h l) = TextNode)
             then Data (deref h l) else "") +:+ concat_str parts) /\
    Flatten fuel h (Some l) = Some (text_of h (preorder (Tr l ks))).
Proof.
  intros Ht Hfuel.
  exists (map (fun k => text_of h (preorder k)) ks).
  pose proof (Flatten_preorder h (Tr l ks) fuel Ht Hfuel) as Hf.
  cbn [tloc] in Hf. split; [|split; [|done]].
  - apply Forall2_fmap_r, Forall_Forall2_diag, Forall_forall.
    intros k Hin. apply Flatten_preorder.
    + by apply (is_tree_kid h l ks).
    + by apply (fuel_kid l ks).
  - rewrite Hf. simpl. by rewrite text_of_kids.
Qed.

(** ** Prev: Next on the mirror image *)

Lemma deref_flip (h : heap) (l : loc) :
  deref (flip h) l = flipNode (deref h l).
Proof.
  unfold deref, flip. rewrite lookup_fmap. by destruct (h !! l).
Qed.

Lemma Prev_ascend_flip (h : heap) (root : ptr) (F : nat) :
  forall n d, Prev_ascend F h root n d = Next_ascend F (flip h) root n d.
Proof.
  induction F as [|F IH]; intros n d; cbn [Prev_ascend Next_ascend];
    rewrite deref_flip; simpl;
    destruct (PrevSibling (deref h n)); try destruct (Parent (deref h n));
    try destruct (bool_decide (Some n = root)); try done.
Qed.

Lemma Prev_flip (h : heap) (n root : ptr) (F : nat) :
  Prev F h n root = Next F (flip h) n root.
Proof.
  destruct n as [l|]; [|done]. simpl. rewrite deref_flip. simpl.
  destruct (LastChild (deref h l)); [done|]. apply Prev_ascend_flip.
Qed.

Lemma backward_flip (h : heap) (root : ptr) (fuel : nat) :
  forall n, backward fuel h root n = forward fuel (flip h) root n.
Proof.
  induction fuel as [|fuel IH]; intros [l|]; try done.
  cbn [backward forward]. rewrite Prev_flip.
  destruct (Next (S fuel) (flip h) (Some l) root) as [[n' d]|]; [|done].
  simpl. by rewrite IH.
Qed.

Lemma tloc_mirror (t : tree) : tloc (mirror t) = tloc t.
Proof. by destruct t. Qed.

Lemma first_or_mirror (e : ptr) (ks : list tree) :
  first_or e (map mirror ks) = first_or e ks.
Proof. destruct ks as [|k ks]; [done|]. simpl. by rewrite tloc_mirror. Qed.

Lemma first_or_app (e : ptr) (ks : list tree) (k : tree) :
  first_or e (ks ++ [k]) = first_or (Some (tloc k)) ks.
Proof. by destruct ks. Qed.

Lemma sibs_snoc (h : heap) (par next : ptr) (k : tree) :
  forall ks prev,
    sibs h par prev (Some (tloc k)) ks ->
    shape h par (first_or prev (rev ks)) next k ->
    sibs h par prev next (ks ++ [k]).
Proof.
  induction ks as [|a ks IH]; intros prev Hs Hk.
  - simpl in *. constructor; [done|constructor].
  - inversion Hs as [|? ? ? ? ? Ha Hks]; subst. simpl.
    constructor.
    + by rewrite first_or_app.
    + apply IH; [done|]. simpl in Hk. by rewrite first_or_app in Hk.
Qed.

Lemma shape_sibs_flip (h : heap) :
  (forall par prev next t,
      shape h par prev next t -> shape (flip h) par next prev (mirror t)) /\
  (forall par prev next ks,
      sibs h par prev next ks ->
      sibs (flip h) par next prev (rev (map mirror ks))).
Proof.
  apply shape_sibs_ind.
  - intros par prev next l ks nd Hl Hp Hpr Hn Hf Hlc _ IH. simpl.
    apply (shape_Tr _ _ _ _ _ _ (flipNode nd)); simpl; try done.
    + unfold flip. by rewrite lookup_fmap, Hl.
    + by rewrite Hlc, <- map_rev, first_or_mirror.
    + by rewrite Hf, rev_involutive, first_or_mirror.
  - intros. constructor.
  - intros par prev next k ks _ IHk _ IHks. simpl.
    apply sibs_snoc.
    + by rewrite tloc_mirror.
    + by rewrite rev_involutive, first_or_mirror.
Qed.

Lemma preorder_mirror (t : tree) : preorder (mirror t) = rev (postorder t).
Proof.
  induction t as [l ks IH] using tree_ind'. simpl.
  rewrite rev_app_distr. simpl. f_equal.
  induction IH as [|k ks Hk _ IHks]; [done|].
  simpl. rewrite flat_map_app, rev_app_distr. simpl.
  by rewrite app_nil_r, IHks, Hk.
Qed.

Lemma postorder_perm (t : tree) : postorder t ≡ₚ preorder t.
Proof.
  induction t as [l ks IH] using tree_ind'. simpl.
  rewrite <- Permutation_cons_append. constructor.
  induction IH as [|k ks Hk _ IHks]; [done|].
  simpl. by rewrite Hk, IHks.
Qed.

Lemma height_le (l : loc) (ks : list tree) (n : nat) :
  (height (Tr l ks) <= n)%nat <->
  forall k, k ∈ ks -> (S (height k) <= n)%nat.
Proof.
  simpl. induction ks as [|k ks IH]; simpl.
  - split; [intros _ k Hk; by apply elem_of_nil in Hk | lia].
  - rewrite Nat.max_lub_iff, IH. split.
    + intros [H1 H2] k' [->|Hk']%elem_of_cons; auto.
    + intros Hall. split; [apply Hall; by left|].
      intros k' Hk'. apply Hall. by right.
Qed.

Lemma elem_of_rev_mirror (ks : list tree) (k' : tree) :
  k' ∈ rev (map mirror ks) <-> exists k, k' = mirror k /\ k ∈ ks.
Proof.
  rewrite list_elem_of_In, <- in_rev, in_map_iff. split.
  - intros (k & <- & Hk). exists k. by rewrite list_elem_of_In.
  - intros (k & -> & Hk). exists k. by rewrite <- list_elem_of_In.
Qed.

Lemma height_mirror (t : tree) : height (mirror t) = height t.
Proof.
  induction t as [l ks IH] using tree_ind'. rewrite Forall_forall in IH.
  apply Nat.le_antisymm.
  - simpl mirror. apply height_le. intros k' Hk'.
    apply elem_of_rev_mirror in Hk' as (k & -> & Hk).
    rewrite (IH k Hk). by apply height_kid.
  - apply height_le. intros k Hk. rewrite <- (IH k Hk).
    simpl mirror. apply height_kid.
    apply elem_of_rev_mirror. eauto.
Qed.

Lemma is_tree_mirror (h : heap) (t : tree) :
  is_tree h t -> is_tree (flip h) (mirror t).
Proof.
  intros [(par & prev & next & Hs) Hnd]. split.
  - exists par, next, prev. by apply shape_sibs_flip.
  - by rewrite preorder_mirror, <- Permutation_rev, postorder_perm.
Qed.

Lemma fuel_mirror (t : tree) (fuel : nat) :
  (height t + length (preorder t) <= fuel)%nat ->
  (height (mirror t) + length (preorder (mirror t)) <= fuel)%nat.
Proof.
  rewrite height_mirror, preorder_mirror, length_rev.
  by rewrite (Permutation_length (postorder_perm t)).
Qed.

Lemma backward_tree (h : heap) (t : tree) (fuel : nat) :
  is_tree h t ->
  (height t + length (preorder t) <= fuel)%nat ->
  exists tr,
    backward fuel h (Some (tloc t)) (Some (tloc t)) = Some tr /\
    tr.*1 = rev (postorder t).
Proof.
  intros Ht Hfuel. rewrite backward_flip.
  pose proof (forward_tree (flip h) (mirror t) fuel
                (is_tree_mirror _ _ Ht) (fuel_mirror _ _ Hfuel)) as Hf.
  rewrite tloc_mirror in Hf. eexists. split; [exact Hf|].
  by rewrite deltas_fst, preorder_d_fst, preorder_mirror.
Qed.

Lemma linked_drop (h : heap) (root : ptr) (F : nat) xs e ed (i : nat) :
  linked F h root xs e ed -> linked F h root (drop i xs) e ed.
Proof.
  revert xs. induction i as [|i IH]; intros xs Hl; [by rewrite drop_0|].
  destruct xs as [|[x dx] xs]; [done|]. destruct Hl as [_ Hl].
  by apply IH.
Qed.

Lemma spine_snoc (l : loc) (ks : list tree) (k : tree) :
  spine (Tr l (ks ++ [k])) = S (spine k).
Proof.
  simpl. induction ks as [|a ks IH]; [done|].
  simpl. destruct (ks ++ [k]) as [|b r] eqn:E; [|exact IH].
  by destruct ks.
Qed.

Lemma snoc_case {A : Type} (l : list A) :
  l = [] \/ exists l' x, l = l' ++ [x].
Proof.
  induction l as [|x l _] using rev_ind; eauto.
Qed.

Lemma last_preorder_is_Some (t : tree) : is_Some (last (preorder t)).
Proof. apply last_is_Some. by destruct t. Qed.

(** The last node in pre-order sits in the mirrored pre-order right
    after its proper ancestors. *)
Lemma preorder_mirror_spine (t : tree) :
  preorder (mirror t) !! spine t = last (preorder t).
Proof.
  induction t as [l ks IH] using tree_ind'.
  destruct (snoc_case ks) as [->|(ks' & k & ->)]; [done|].
  rename ks' into ks. apply Forall_app in IH as [_ IH]. rewrite Forall_singleton in IH.
  rewrite spine_snoc. simpl. rewrite map_app, rev_app_distr. simpl.
  rewrite flat_map_app. simpl. rewrite app_nil_r.
  destruct (last_preorder_is_Some k) as [x Hx]. rewrite Hx in IH.
  rewrite (lookup_app_l_Some _ _ _ _ IH).
  rewrite last_cons, last_app, Hx. done.
Qed.

(** C3, as the code has it.  [Prev] mirrors [Next]: it descends to the
    last child first.  From the root of a subtree, repeated [Next]
    steps visit the subtree in pre-order, and repeated [Prev] steps
    visit it in reverse post-order, which is the pre-order of the
    mirror image and not the reverse of the forward sequence.  Started
    from the last node of the forward sequence, repeated [Prev] steps
    visit the reverse post-order from that node on: the proper
    ancestors of the node are left out. *)
Theorem Next_Prev_mirror (h : heap) (t : tree) (fuel : nat) :
  is_tree h t ->
  (height t + length (preorder t) <= fuel)%nat ->
  exists fw bw bl lst,
    forward fuel h (Some (tloc t)) (Some (tloc t)) = Some fw /\
    fw.*1 = preorder t /\
    backward fuel h (Some (tloc t)) (Some (tloc t)) = Some bw /\
    bw.*1 = rev (postorder t) /\
    last (preorder t) = Some lst /\
    backward fuel h (Some (tloc t)) (Some lst) = Some bl /\
    bl.*1 = drop (spine t) (rev (postorder t)).
Proof.
  intros Ht Hfuel.
  destruct (backward_tree h t fuel Ht Hfuel) as (bw & Hbw & Hbw1).
  destruct (last_preorder_is_Some t) as [lst Hlst].
  pose proof (preorder_mirror_spine t) as Hsp. rewrite Hlst in Hsp.
  pose proof (linked_root _ _ (is_tree_mirror _ _ Ht)) as Hl.
  rewrite tloc_mirror in Hl.
  apply (linked_drop _ _ _ _ _ _ (spine t)) in Hl.
  rewrite <- (preorder_d_fst (mirror t) 0), list_lookup_fmap in Hsp.
  destruct (preorder_d 0 (mirror t) !! spine t) as [[x dx]|] eqn:Ex;
    [|done].
  simpl in Hsp. injection Hsp as ->.
  pose proof (drop_S _ _ _ Ex) as Hd.
  pose proof (forward_linked (flip h) _ _ _ 0 fuel Hl) as Hf.
  assert (Hst : (hd_or (drop (spine t) (preorder_d 0 (mirror t))) None 0).1
                = Some lst) by (by rewrite Hd).
  rewrite Hst in Hf.
  exists (deltas (preorder_d 0 t) 0), bw,
         (deltas (drop (spine t) (preorder_d 0 (mirror t))) 0), lst.
  split; [by apply forward_tree|].
  split; [by rewrite deltas_fst, preorder_d_fst|].
  split; [done|]. split; [done|]. split; [done|]. split.
  - rewrite backward_flip. apply Hf.
    rewrite length_drop. pose proof (fuel_mirror t fuel Hfuel) as Hm.
    rewrite <- (preorder_d_fst (mirror t) 0), length_fmap in Hm. lia.
  - by rewrite deltas_fst, fmap_drop, preorder_d_fst, preorder_mirror.
Qed.

(** ** String and PrintTree *)

Lemma length_append (a b : string) :
  String.length (a +:+ b) = (String.length a + String.length b)%nat.
Proof.
  induction a as [|c a IH]; [done|]. rewrite append_cons. simpl.
  by rewrite IH.
Qed.

Lemma length_substring_0 (m : nat) :
  forall s, (m <= String.length s)%nat ->
            String.length (String.substring 0 m s) = m.
Proof.
  induction m as [|m IH]; intros s Hm.
  - by destruct s.
  - destruct s as [|c s]; simpl in *; [lia|]. rewrite IH; lia.
Qed.

Lemma slice_to_Some (s : string) (k : Z) :
  0 <= k <= Z.of_nat (String.length s) ->
  exists s', slice_to s k = Some s' /\ Z.of_nat (String.length s') = k.
Proof.
  intros Hk. unfold slice_to.
  destruct (Z.ltb_spec k 0); [lia|].
  destruct (Z.ltb_spec (Z.of_nat (String.length s)) k); [lia|]. simpl.
  eexists. split; [done|]. rewrite length_substring_0; lia.
Qed.

Lemma PrintTree_unindent_Some (k : nat) :
  forall indent,
    2 * Z.of_nat k <= Z.of_nat (String.length indent) ->
    exists indent',
      PrintTree_unindent k indent = Some indent' /\
      Z.of_nat (String.length indent')
      = Z.of_nat (String.length indent) - 2 * Z.of_nat k.
Proof.
  induction k as [|k IH]; intros indent Hk.
  - exists indent. split; [done|lia].
  - cbn [PrintTree_unindent].
    destruct (slice_to_Some indent (Z.of_nat (String.length indent) - 2))
      as (s' & -> & Hs'); [lia|].
    destruct (IH s') as (s'' & Hs'' & Hlen); [lia|].
    exists s''. split; [done|lia].
Qed.

Lemma Split_nl_nonempty (str : string) : Split_nl str <> [].
Proof.
  induction str as [|c str IH]; [done|]. simpl.
  destruct (bool_decide (c = ascii_of_nat 10)); [done|].
  by destruct (Split_nl str).
Qed.

Lemma String_c_loop_length (col rst : string) (ss : list string) :
  forall cs, ss <> [] ->
    (1 <= String.length
            (foldl (fun cs s => cs +:+ col +:+ s +:+ rst +:+ nl) cs ss))%nat.
Proof.
  induction ss as [|s ss IH]; intros cs Hne; [done|]. simpl.
  destruct ss as [|s' ss]; [|by apply IH].
  simpl. rewrite !length_append. simpl. lia.
Qed.

(** The slice expression in the closure [c] of [String] is always in
    range: the string it cuts ends with a newline. *)
Lemma String_c_is_Some (colour : bool) (str col : string) :
  is_Some (String_c colour str col).
Proof.
  unfold String_c. destruct colour; [|eauto].
  pose proof (String_c_loop_length col (esc +:+ "[0m") (Split_nl str) ""
                (Split_nl_nonempty str)) as Hlen.
  cbv zeta.
  match goal with |- is_Some (slice_to ?cs ?k) =>
    destruct (slice_to_Some cs k) as (s' & -> & _); [lia|eauto] end.
Qed.

Lemma String_attrs_is_Some (Sprintf_v : string -> string) (colour : bool)
    (al : list Attribute) :
  forall attrs, is_Some (String_attrs Sprintf_v colour al attrs).
Proof.
  induction al as [|a al IH]; intros attrs; [by eexists|].
  cbn [String_attrs].
  destruct (String_c_is_Some colour (Key a) (esc +:+ "[33m")) as [x ->].
  destruct (String_c_is_Some colour (AttrNamespace a) (esc +:+ "[33m"))
    as [y ->].
  destruct (String_c_is_Some colour (Sprintf_v (Val a)) (esc +:+ "[36m"))
    as [z Hz].
  simpl. destruct (bool_decide (AttrNamespace a <> "")); simpl;
    rewrite Hz; simpl; apply IH.
Qed.

(** [String] never panics. *)
Lemma String_is_Some (Sprintf_v : string -> string) (h : heap) (n : ptr)
    (colour : bool) :
  is_Some (String_ Sprintf_v h n colour).
Proof.
  destruct n as [l|]; [|by eexists]. unfold String_. cbv zeta.
  destruct (Type_ (deref h l)).
  all: repeat match goal with
       | |- context [String_c ?c ?s ?col] =>
           let x := fresh "x" in
           destruct (String_c_is_Some c s col) as [x ->]; simpl
       | |- context [String_attrs ?f ?c ?al ?a] =>
           let x := fresh "x" in
           destruct (String_attrs_is_Some f c al a) as [x ->]; simpl
       | |- context [bool_decide ?P] => destruct (bool_decide P); simpl
       end; eauto.
Qed.

Lemma Next_ascend_le (h : heap) (root : ptr) (F : nat) :
  forall n d0 p d, Next_ascend F h root n d0 = Some (p, d) -> d <= d0.
Proof.
  induction F as [|F IH]; intros n d0 p d; cbn [Next_ascend];
    destruct (NextSibling (deref h n)); try destruct (Parent (deref h n));
    try destruct (bool_decide (Some n = root)); try done;
    try (intros [= <- <-]; lia).
  intros H. apply IH in H. lia.
Qed.

Lemma Next_le_1 (h : heap) (n root : ptr) (F : nat) p d :
  Next F h n root = Some (p, d) -> d <= 1.
Proof.
  destruct n as [l|]; simpl; [|intros [= <- <-]; lia].
  destruct (FirstChild (deref h l)); [intros [= <- <-]; lia|].
  intros H. apply Next_ascend_le in H. lia.
Qed.

Lemma Next_det (h : heap) (n root : ptr) (F1 F2 : nat) r1 r2 :
  Next F1 h n root = Some r1 -> Next F2 h n root = Some r2 -> r1 = r2.
Proof.
  intros H1 H2.
  apply (Next_mono _ _ _ _ (Nat.max F1 F2)) in H1; [|lia].
  apply (Next_mono _ _ _ _ (Nat.max F1 F2)) in H2; [|lia]. congruence.
Qed.

Lemma preorder_d_depth (t : tree) :
  forall d, Forall (fun p : loc * Z => d <= p.2) (preorder_d d t).
Proof.
  induction t as [l ks IH] using tree_ind'. intros d. simpl.
  constructor; [simpl; lia|].
  induction IH as [|k ks Hk _ IHks]; [done|]. simpl.
  apply Forall_app. split; [|done].
  eapply Forall_impl; [apply (Hk (d + 1))|]. simpl. intros; lia.
Qed.

Lemma linked_hd (h : heap) (root : ptr) (F : nat) x dx rest e ed :
  linked F h root ((x, dx) :: rest) e ed ->
  Next F h (Some x) root
  = Some ((hd_or rest e ed).1, (hd_or rest e ed).2 - dx).
Proof.
  intros [H _]. rewrite H. by destruct rest as [|[y dy] rest].
Qed.

Section PrintTree_properties.

Context {error W : Type}.
Variable Fprintf : W -> string -> W * option error.
Variable Sprintf_v : string -> string.

Lemma PrintTree_print_no_panic (h : heap) (colour : bool) (w : W)
    (indent : string) (l : loc) :
  match PrintTree_print Fprintf Sprintf_v h colour w indent l with
  | inl r => exists w' err, r = PT_return w' err
  | inr _ => True
  end.
Proof.
  unfold PrintTree_print. destruct (_ || _); [|done].
  destruct (String_is_Some Sprintf_v h (Some l) colour) as [line ->].
  destruct (Fprintf w (indent +:+ line +:+ nl)) as [w' [err|]]; eauto.
Qed.

(** One step of the indentation: at a node of depth [dx] with an
    indentation of [2 * dx] characters, the update never slices out of
    range and leaves [2 * d'] characters, [d'] being the depth of the
    next node (zero when the traversal is exhausted). *)
Lemma PrintTree_advance_linked (h : heap) (root : ptr) (F fuel : nat)
    (w : W) (indent : string) x dx rest ed :
  linked F h root ((x, dx) :: rest) None ed ->
  0 <= (hd_or rest None ed).2 ->
  Z.of_nat (String.length indent) = 2 * dx ->
  match PrintTree_advance (error := error) fuel h root w indent x with
  | inl r => r = PT_starved /\ ~ (F <= fuel)%nat
  | inr (w', indent', n') =>
      w' = w /\ n' = (hd_or rest None ed).1 /\
      Z.of_nat (String.length indent') = 2 * (hd_or rest None ed).2
  end.
Proof.
  intros Hl Hd Hind. apply linked_hd in Hl. unfold PrintTree_advance.
  destruct (Next fuel h (Some x) root) as [[n' delta]|] eqn:En.
  - pose proof (Next_le_1 _ _ _ _ _ _ En) as Hle.
    pose proof (Next_det _ _ _ _ _ _ _ En Hl) as [= -> ->].
    destruct (bool_decide_reflect ((hd_or rest None ed).2 - dx = 1))
      as [H1|H1].
    + split; [done|]. split; [done|]. rewrite length_append. simpl. lia.
    + destruct (PrintTree_unindent_Some
                  (Z.to_nat (- ((hd_or rest None ed).2 - dx))) indent)
        as (indent' & -> & Hlen); [lia|].
      split; [done|]. split; [done|]. lia.
  - split; [done|]. intros HF.
    by rewrite (Next_mono _ _ _ _ fuel _ Hl HF) in En.
Qed.

Lemma PrintTree_loop_linked (h : heap) (root : ptr) (colour : bool)
    (F : nat) :
  forall xs ed fuel w indent,
    linked F h root xs None ed ->
    Forall (fun p : loc * Z => 0 <= p.2) xs -> 0 <= ed ->
    Z.of_nat (String.length indent) = 2 * (hd_or xs None ed).2 ->
    PrintTree_loop Fprintf Sprintf_v fuel h root colour w indent
      (hd_or xs None ed).1 <> PT_panic /\
    ((F + length xs <= fuel)%nat ->
     exists w' err,
       PrintTree_loop Fprintf Sprintf_v fuel h root colour w indent
         (hd_or xs None ed).1 = PT_return w' err).
Proof.
  induction xs as [|[x dx] xs IH]; intros ed fuel w indent Hl Hd Hed Hind.
  - destruct fuel; simpl; eauto.
  - cbn [hd_or fst snd] in *. destruct fuel as [|fuel].
    { simpl. split; [done|lia]. }
    cbn [PrintTree_loop]. unfold PrintTree_body.
    pose proof (PrintTree_print_no_panic h colour w indent x) as Hp.
    destruct (PrintTree_print Fprintf Sprintf_v h colour w indent x)
      as [r|w1].
    { destruct Hp as (w' & err & ->). eauto. }
    apply Forall_cons in Hd as [Hdx Hd].
    assert (Hnext : 0 <= (hd_or xs None ed).2).
    { destruct xs as [|[y dy] xs]; [done|].
      by apply Forall_cons in Hd as [Hy _]. }
    pose proof (PrintTree_advance_linked h root F (S fuel) w1 indent
                  x dx xs ed Hl Hnext Hind) as Ha.
    destruct (PrintTree_advance (S fuel) h root w1 indent x)
      as [r|[[w2 indent2] n2]].
    { destruct Ha as [-> HF]. split; [done|]. simpl. lia. }
    destruct Ha as (-> & -> & Hind2). destruct Hl as [_ Hl].
    destruct (IH ed fuel w1 indent2 Hl Hd Hed Hind2) as [IH1 IH2].
    split; [done|]. intros Hfuel. apply IH2. simpl in Hfuel. lia.
Qed.

(** The states at the head of the loop are positions in the pre-order
    of the tree, with an indentation of twice the depth. *)
Lemma PrintTree_at_linked (h : heap) (root : ptr) (colour : bool)
    (F : nat) (xs : list (loc * Z)) (fuel0 : nat) (w0 : W) :
  linked F h root xs None 0 ->
  Forall (fun p : loc * Z => 0 <= p.2) xs ->
  root = (hd_or xs None 0).1 -> (hd_or xs None 0).2 = 0 ->
  forall fuel w indent n,
    PrintTree_at Fprintf Sprintf_v fuel0 h root colour w0 fuel w indent n ->
    exists i,
      n = (hd_or (drop i xs) None 0).1 /\
      Z.of_nat (String.length indent) = 2 * (hd_or (drop i xs) None 0).2.
Proof.
  intros Hl Hd Hroot Hd0. induction 1 as [|fuel w indent l w' indent' n' _ IH Hb].
  - exists O. rewrite drop_0, Hd0. done.
  - destruct IH as (i & Hn & Hind).
    destruct (drop i xs) as [|[x dx] rest] eqn:Ei; [done|].
    simpl in Hn, Hind. injection Hn as ->.
    unfold PrintTree_body in Hb.
    destruct (PrintTree_print Fprintf Sprintf_v h colour w indent x)
      as [r|w1]; [done|].
    pose proof (linked_drop _ _ _ _ _ _ i Hl) as Hli. rewrite Ei in Hli.
    pose proof (Forall_drop _ i _ Hd) as Hdi. rewrite Ei in Hdi.
    apply Forall_cons in Hdi as [Hdx Hdi].
    assert (Hnext : 0 <= (hd_or rest None 0).2).
    { destruct rest as [|[y dy] rest]; [done|].
      by apply Forall_cons in Hdi as [Hy _]. }
    pose proof (PrintTree_advance_linked h root F (S fuel) w1 indent
                  x dx rest 0 Hli Hnext Hind) as Ha.
    rewrite Hb in Ha. destruct Ha as (_ & -> & Hind').
    exists (S i).
    assert (Hrest : drop (S i) xs = rest).
    { by rewrite <- (Nat.add_1_l i), Nat.add_comm, <- drop_drop, Ei. }
    by rewrite Hrest.
Qed.

(** C10.  On a tree in the heap, whatever the writer does: at the head
    of every turn of the loop of [PrintTree] the current node is a node
    of the tree and the indentation has twice as many characters as the
    node is deep below the root; the call never panics, whatever the
    fuel, and with enough fuel it returns.  With an absent root it
    returns at once. *)
Theorem PrintTree_indent_depth (h : heap) (t : tree) (colour : bool)
    (fuel0 : nat) (w0 : W) :
  is_tree h t ->
  (forall fuel w indent l,
      PrintTree_at Fprintf Sprintf_v fuel0 h (Some (tloc t)) colour w0
        fuel w indent (Some l) ->
      exists d, (l, d) ∈ preorder_d 0 t /\
                Z.of_nat (String.length indent) = 2 * d) /\
  PrintTree Fprintf Sprintf_v fuel0 h w0 (Some (tloc t)) colour
    <> PT_panic /\
  ((height t + length (preorder t) <= fuel0)%nat ->
   exists w' err,
     PrintTree Fprintf Sprintf_v fuel0 h w0 (Some (tloc t)) colour
     = PT_return w' err) /\
  PrintTree Fprintf Sprintf_v fuel0 h w0 None colour = PT_return w0 None.
Proof.
  intros Ht. pose proof (linked_root h t Ht) as Hl.
  pose proof (preorder_d_depth t 0) as Hd.
  destruct (preorder_d_hd 0 t) as [xs Hxs].
  assert (Hst : hd_or (preorder_d 0 t) None 0 = (Some (tloc t), 0))
    by (by rewrite Hxs).
  split; [|split; [|split]].
  - intros fuel w indent l Hat.
    destruct (PrintTree_at_linked h (Some (tloc t)) colour _ _ fuel0 w0
                Hl Hd) with (fuel := fuel) (w := w) (indent := indent)
                            (n := Some l) as (i & Hn & Hind);
      [by rewrite Hst..|done|].
    destruct (drop i (preorder_d 0 t)) as [|[x dx] rest] eqn:Ei; [done|].
    simpl in Hn, Hind. injection Hn as ->. exists dx. split; [|done].
    apply (list_elem_of_lookup_2 _ i).
    rewrite <- (Nat.add_0_r i), <- lookup_drop, Ei. done.
  - pose proof (PrintTree_loop_linked h (Some (tloc t)) colour _ _ 0 fuel0
                  w0 "" Hl Hd) as Hloop.
    rewrite Hst in Hloop. simpl in Hloop. apply Hloop; done.
  - intros Hfuel.
    pose proof (PrintTree_loop_linked h (Some (tloc t)) colour _ _ 0 fuel0
                  w0 "" Hl Hd) as Hloop.
    rewrite Hst in Hloop. simpl in Hloop.
    apply Hloop; try done. by apply size_fuel.
  - by destruct fuel0.
Qed.

End PrintTree_properties.

(** ** The claims about Compare and Find, and the examples *)

(** C2.  [Compare] is true exactly when both nodes are present, their
    type, data and namespace are equal and every attribute of the
    second is an attribute of the first; so it is false when a node is
    absent or one of the three fields differs, and attributes of the
    first node alone play no part.  A node with a=1 and b=2 matches a
    pattern node with a=1, and not the other way round. *)
Theorem Compare_spec :
  (forall (h : heap) (n1 n2 : ptr),
      Compare h n1 n2 = true <->
      exists l1 l2,
        n1 = Some l1 /\ n2 = Some l2 /\
        Type_ (deref h l1) = Type_ (deref h l2) /\
        Data (deref h l1) = Data (deref h l2) /\
        Namespace (deref h l1) = Namespace (deref h l2) /\
        forall a, a ∈ Attr (deref h l2) -> a ∈ Attr (deref h l1)) /\
  Compare ex_attrs (Some 1%positive) (Some 2%positive) = true /\
  Compare ex_attrs (Some 2%positive) (Some 1%positive) = false.
Proof.
  split; [apply Compare_true|]. split.
  - apply Compare_true. exists 1%positive, 2%positive.
    repeat split; try reflexivity.
    intros a Ha. change (a ∈ [mkAttribute "" "a" "1"]) in Ha.
    apply list_elem_of_singleton in Ha as ->. by left.
  - apply not_true_is_false. intros H.
    apply Compare_true in H as (l1 & l2 & [= <-] & [= <-] & _ & _ & _ & H).
    specialize (H (mkAttribute "" "b" "2")).
    change (mkAttribute "" "b" "2"
              ∈ [mkAttribute "" "a" "1"; mkAttribute "" "b" "2"] ->
            mkAttribute "" "b" "2" ∈ [mkAttribute "" "a" "1"]) in H.
    assert (Hin : mkAttribute "" "b" "2" ∈ [mkAttribute "" "a" "1"]).
    { apply H. right. by left. }
    by apply list_elem_of_singleton in Hin.
Qed.

Lemma ex_doc_is_tree : is_tree ex_doc ex_tree.
Proof.
  split.
  - exists None, None, None.
    repeat first
      [ apply sibs_nil
      | eapply sibs_cons
      | eapply shape_Tr; [reflexivity..|] ].
  - compute_done.
Qed.

Lemma ex_pair_is_tree : is_tree ex_pair ex_pair_tree.
Proof.
  split.
  - exists None, None, None.
    repeat first
      [ apply sibs_nil
      | eapply sibs_cons
      | eapply shape_Tr; [reflexivity..|] ].
  - compute_done.
Qed.

Lemma ex_text_is_tree : is_tree ex_text ex_text_tree.
Proof.
  split.
  - exists None, None, None.
    eapply shape_Tr; [reflexivity..|]. apply sibs_nil.
  - compute_done.
Qed.

(** ** The claims at the example heaps *)

Local Open Scope positive_scope.

Lemma Match_lockstep_witness :
  Match 2 ex_doc (Some 3) (Some 8) = Some true /\
  Match 1 ex_doc (Some 1) (Some 10) = Some false /\
  Match 0 ex_doc (Some 2) (Some 8) = Some false.
Proof.
  split; [|split].
  - refine (proj1 (proj2 (Match_lockstep ex_doc (Some 3) (Some 8)
                            [3; 2; 1] [8; 7] _ _) _ 2%nat _) _).
    + exact (chain_cons ex_doc 3 [2; 1]
               (chain_cons ex_doc 2 [1]
                  (chain_cons ex_doc 1 [] (chain_nil ex_doc)))).
    + exact (chain_cons ex_doc 8 [7]
               (chain_cons ex_doc 7 [] (chain_nil ex_doc))).
    + intros [|[|k]] a b Ha Hb; simpl in Ha, Hb; simplify_eq; reflexivity.
    + simpl. lia.
    + simpl. lia.
  - refine (proj2 (proj2 (Match_lockstep ex_doc (Some 1) (Some 10)
                            [1] [10; 9] _ _) _ 1%nat _) _).
    + exact (chain_cons ex_doc 1 [] (chain_nil ex_doc)).
    + exact (chain_cons ex_doc 10 [9]
               (chain_cons ex_doc 9 [] (chain_nil ex_doc))).
    + intros [|k] a b Ha Hb; simpl in Ha, Hb; simplify_eq; reflexivity.
    + simpl. lia.
    + simpl. lia.
  - refine (proj1 (Match_lockstep ex_doc (Some 2) (Some 8)
                     [2; 1] [8; 7] _ _) 0%nat 2 8 _ _ _ 0%nat _).
    + exact (chain_cons ex_doc 2 [1]
               (chain_cons ex_doc 1 [] (chain_nil ex_doc))).
    + exact (chain_cons ex_doc 8 [7]
               (chain_cons ex_doc 7 [] (chain_nil ex_doc))).
    + reflexivity.
    + reflexivity.
    + reflexivity.
    + lia.
Defined.

(** C3 as stated fails on a [div] with one child [a]: the forward
    sequence from the root is the root and then the child; [Prev] from
    the child, the last node of that sequence, goes up to the root,
    finds it to be the bound and returns nil, so the reverse sequence
    is the child alone and the root is never reached. *)
Lemma Next_Prev_not_inverse :
  is_tree ex_pair ex_pair_tree /\
  forward 3 ex_pair (Some 1) (Some 1) = Some [(1, 1%Z); (2, (-1)%Z)] /\
  backward 3 ex_pair (Some 1) (Some 2) = Some [(2, (-1)%Z)] /\
  rev [1; 2] <> [2].
Proof.
  split; [exact ex_pair_is_tree|]. split; [reflexivity|].
  split; [reflexivity|]. discriminate.
Qed.

Lemma Next_Prev_mirror_witness :
  exists fw bw bl lst,
    forward 10 ex_doc (Some 1) (Some 1) = Some fw /\
    fw.*1 = [1; 2; 3; 5; 4; 6] /\
    backward 10 ex_doc (Some 1) (Some 1) = Some bw /\
    bw.*1 = [1; 2; 4; 6; 3; 5] /\
    last [1; 2; 3; 5; 4; 6] = Some lst /\
    backward 10 ex_doc (Some 1) (Some lst) = Some bl /\
    bl.*1 = [6; 3; 5].
Proof.
  apply (Next_Prev_mirror ex_doc ex_tree 10 ex_doc_is_tree).
  simpl. lia.
Defined.

Lemma forward_deltas_sum_zero_witness :
  exists tr,
    forward 10 ex_doc (Some 1) (Some 1) = Some tr /\
    tr.*1 = [1; 2; 3; 5; 4; 6] /\
    sumZ tr.*2 = 0%Z /\
    forward 10 ex_doc None None = Some [].
Proof.
  apply (forward_deltas_sum_zero ex_doc ex_tree 10 ex_doc_is_tree).
  simpl. lia.
Defined.

Lemma Leaf_no_first_child_witness :
  Leaf ex_parse_probe 1 ∅ "<div><a>" = Some (ex_doc, Some 8) /\
  FirstChild (deref ex_doc 8) = None.
Proof.
  split; [reflexivity|].
  apply (Leaf_no_first_child ex_parse_probe 1 ∅ "<div><a>" ex_doc 8).
  reflexivity.
Defined.

(** C8 as stated fails on a single text node ["x"]: [Flatten] returns
    its payload, while the node has no children to concatenate. *)
Lemma Flatten_text_root :
  is_tree ex_text ex_text_tree /\
  Flatten 1 ex_text (Some 1) = Some "x" /\
  tkids ex_text_tree = [] /\
  ~ (exists parts,
        Forall2 (fun k s => Flatten 1 ex_text (Some (tloc k)) = Some s)
                (tkids ex_text_tree) parts /\
        Flatten 1 ex_text (Some 1) = Some (concat_str parts)).
Proof.
  split; [exact ex_text_is_tree|]. split; [reflexivity|].
  split; [reflexivity|].
  intros (parts & Hparts & Heq). simpl in Hparts.
  apply Forall2_nil_inv_l in Hparts as ->. discriminate.
Qed.

Lemma Flatten_children_witness :
  exists parts,
    Forall2 (fun k s => Flatten 10 ex_doc (Some (tloc k)) = Some s)
            [Tr 3 [Tr 5 []]; Tr 4 [Tr 6 []]] parts /\
    Flatten 10 ex_doc (Some 2)
    = Some ((if bool_decide (Type_ (deref ex_doc 2) = TextNode)
             then Data (deref ex_doc 2) else "") +:+ concat_str parts) /\
    Flatten 10 ex_doc (Some 2) = Some "DocumentsPackages".
Proof.
  apply (Flatten_children ex_doc 2 [Tr 3 [Tr 5 []]; Tr 4 [Tr 6 []]] 10).
  - apply (is_tree_kid ex_doc 1 [Tr 2 [Tr 3 [Tr 5 []]; Tr 4 [Tr 6 []]]]).
    + exact ex_doc_is_tree.
    + by left.
  - simpl. lia.
Defined.

Lemma PrintTree_indent_depth_witness :
  (forall fuel w indent l,
      PrintTree_at ex_Fprintf id 10 ex_doc (Some 1) true [] fuel w indent
        (Some l) ->
      exists d, (l, d) ∈ preorder_d 0 ex_tree /\
                Z.of_nat (String.length indent) = (2 * d)%Z) /\
  PrintTree ex_Fprintf id 10 ex_doc [] (Some 1) true <> PT_panic /\
  ((height ex_tree + length (preorder ex_tree) <= 10)%nat ->
   exists w' err,
     PrintTree ex_Fprintf id 10 ex_doc [] (Some 1) true
     = PT_return w' err) /\
  PrintTree ex_Fprintf id 10 ex_doc [] None true = PT_return [] None.
Proof.
  apply (PrintTree_indent_depth ex_Fprintf id ex_doc ex_tree true 10 []).
  exact ex_doc_is_tree.
Defined.

Local Close Scope positive_scope.

(* ================================================================== *)
(** * Further properties of the package                                *)
(* ================================================================== *)

(** ** Attr and AttrNS *)

Lemma Attr_loop_found (attrs : list Attribute) (key v : string) :
  Attr_loop attrs key = (v, true) <->
  exists pre a post,
    attrs = pre ++ a :: post /\ Forall (fun b => Key b <> key) pre /\
    Key a = key /\ Val a = v.
Proof.
  induction attrs as [|b attrs IH]; simpl.
  - split; [done|]. intros (pre & a & post & H & _). by destruct pre.
  - destruct (bool_decide_reflect (Key b = key)) as [Hb|Hb].
    + split.
      * intros [= <-]. exists [], b, attrs. by repeat split.
      * intros (pre & a & post & H & Hpre & Ha & Hv).
        destruct pre as [|b' pre]; simpl in H; injection H as -> ->.
        -- by rewrite Hv.
        -- by apply Forall_cons in Hpre as [Hb' _].
    + rewrite IH. split.
      * intros (pre & a & post & -> & Hpre & Ha & Hv).
        exists (b :: pre), a, post. repeat split; try done.
        by constructor.
      * intros (pre & a & post & H & Hpre & Ha & Hv).
        destruct pre as [|b' pre]; simpl in H; injection H as -> ->.
        -- done.
        -- apply Forall_cons in Hpre as [_ Hpre]. by exists pre, a, post.
Qed.

Lemma Attr_loop_missing (attrs : list Attribute) (key : string) :
  Attr_loop attrs key = ("", false) <-> Forall (fun b => Key b <> key) attrs.
Proof.
  induction attrs as [|b attrs IH]; simpl; [by split|].
  destruct (bool_decide_reflect (Key b = key)) as [Hb|Hb].
  - split; [done|]. by intros [Hb' _]%Forall_cons.
  - rewrite IH. split; [by constructor|]. by intros [_ ?]%Forall_cons.
Qed.

(** X1.  [Attr] returns the value of the first attribute whose key is
    [key], whatever its namespace, and [("", false)] exactly when the
    node is nil or has no attribute with that key. *)
Theorem Attr_first_match (h : heap) (n : ptr) (key : string) :
  (forall v,
      Attr_ h n key = (v, true) <->
      exists l pre a post,
        n = Some l /\ Attr (deref h l) = pre ++ a :: post /\
        Forall (fun b => Key b <> key) pre /\ Key a = key /\ Val a = v) /\
  (Attr_ h n key = ("", false) <->
   forall l, n = Some l -> Forall (fun b => Key b <> key) (Attr (deref h l))).
Proof.
  destruct n as [l|]; simpl.
  - split.
    + intros v. rewrite Attr_loop_found. split.
      * intros (pre & a & post & H). by exists l, pre, a, post.
      * intros (? & pre & a & post & [= <-] & H). by exists pre, a, post.
    + rewrite Attr_loop_missing. split; [by intros H ? [= <-]|auto].
  - split; [|by split].
    intros v. split; [done|]. by intros (? & ? & ? & ? & ? & _).
Qed.

Lemma AttrNS_loop_found (attrs : list Attribute) (ns key v : string) :
  AttrNS_loop attrs ns key = (v, true) <->
  exists pre a post,
    attrs = pre ++ a :: post /\
    Forall (fun b => ~ (Key b = key /\ AttrNamespace b = ns)) pre /\
    Key a = key /\ AttrNamespace a = ns /\ Val a = v.
Proof.
  induction attrs as [|b attrs IH]; simpl.
  - split; [done|]. intros (pre & a & post & H & _). by destruct pre.
  - destruct (bool_decide_reflect (Key b = key)) as [Hb|Hb];
      destruct (bool_decide_reflect (AttrNamespace b = ns)) as [Hn|Hn];
      simpl.
    1: { split.
         - intros [= <-]. exists [], b, attrs. by repeat split.
         - intros (pre & a & post & H & Hpre & Ha & Hns & Hv).
           destruct pre as [|b' pre]; simpl in H; injection H as -> ->.
           + by rewrite Hv.
           + apply Forall_cons in Hpre as [Hb' _]. by destruct Hb'. }
    all: rewrite IH; split;
      [ intros (pre & a & post & -> & Hpre & Ha & Hns & Hv);
        exists (b :: pre), a, post; repeat split; try done;
        constructor; [tauto|done]
      | intros (pre & a & post & H & Hpre & Ha & Hns & Hv);
        destruct pre as [|b' pre]; simpl in H; injection H as -> ->;
        [ tauto
        | apply Forall_cons in Hpre as [_ Hpre]; by exists pre, a, post ] ].
Qed.

(** X2.  [AttrNS] returns the value of the first attribute whose key
    and namespace are both the ones asked for; attributes before it
    with the same key and another namespace are passed over. *)
Theorem AttrNS_first_match (h : heap) (n : ptr) (ns key v : string) :
  AttrNS h n ns key = (v, true) <->
  exists l pre a post,
    n = Some l /\ Attr (deref h l) = pre ++ a :: post /\
    Forall (fun b => ~ (Key b = key /\ AttrNamespace b = ns)) pre /\
    Key a = key /\ AttrNamespace a = ns /\ Val a = v.
Proof.
  destruct n as [l|]; simpl.
  - rewrite AttrNS_loop_found. split.
    + intros (pre & a & post & H). by exists l, pre, a, post.
    + intros (? & pre & a & post & [= <-] & H). by exists pre, a, post.
  - split; [done|]. by intros (? & ? & ? & ? & ? & _).
Qed.

Lemma AttrNS_loop_Attr_loop (attrs : list Attribute) (ns key : string) :
  ((AttrNS_loop attrs ns key).2 = true -> (Attr_loop attrs key).2 = true) /\
  (Forall (fun b => Key b = key -> AttrNamespace b = ns) attrs ->
   AttrNS_loop attrs ns key = Attr_loop attrs key).
Proof.
  induction attrs as [|b attrs [IH1 IH2]]; simpl; [done|].
  destruct (bool_decide_reflect (Key b = key)) as [Hb|Hb];
    destruct (bool_decide_reflect (AttrNamespace b = ns)) as [Hn|Hn];
    simpl; split; try done.
  - intros [Hb' _]%Forall_cons. by destruct Hn; apply Hb'.
  - intros [_ H]%Forall_cons. auto.
  - intros [_ H]%Forall_cons. auto.
Qed.

(** X3.  Whenever [AttrNS] finds an attribute, [Attr] finds one for the
    same key (not always the same one); the two agree on a node all of
    whose attributes with that key are in the namespace asked for. *)
Theorem AttrNS_Attr (h : heap) (n : ptr) (ns key : string) :
  ((AttrNS h n ns key).2 = true -> (Attr_ h n key).2 = true) /\
  ((forall l, n = Some l ->
      Forall (fun b => Key b = key -> AttrNamespace b = ns)
             (Attr (deref h l))) ->
   AttrNS h n ns key = Attr_ h n key).
Proof.
  destruct n as [l|]; simpl; [|done].
  destruct (AttrNS_loop_Attr_loop (Attr (deref h l)) ns key) as [H1 H2].
  split; [done|]. intros H. apply H2. by apply H.
Qed.

(** ** Compare and Match as orders *)

Lemma Compare_true_trans (h : heap) (n1 n2 n3 : ptr) :
  Compare h n1 n2 = true -> Compare h n2 n3 = true ->
  Compare h n1 n3 = true.
Proof.
  rewrite !Compare_true.
  intros (l1 & l2 & -> & -> & Ht & Hd & Hn & Ha)
         (l2' & l3 & [= <-] & -> & Ht' & Hd' & Hn' & Ha').
  exists l1, l3. repeat split; try congruence. auto.
Qed.

(** X4.  [Compare] is transitive: attribute containment composes. *)
Theorem Compare_trans (h : heap) (n1 n2 n3 : ptr) :
  Compare h n1 n2 = true -> Compare h n2 n3 = true ->
  Compare h n1 n3 = true.
Proof.
  apply Compare_true_trans.
Qed.

Lemma Match_mono (h : heap) (fuel : nat) :
  forall fuel' n1 n2 b,
    Match fuel h n1 n2 = Some b -> (fuel <= fuel')%nat ->
    Match fuel' h n1 n2 = Some b.
Proof.
  induction fuel as [|fuel IH]; intros fuel' n1 n2 b;
    destruct fuel' as [|fuel']; destruct n1 as [l1|], n2 as [l2|];
    cbn [Match]; try done; try lia;
    destruct (negb (Compare h (Some l1) (Some l2))); try done.
  intros H Hle. apply IH; [done|lia].
Qed.

Lemma Match_returns_chain (h : heap) :
  forall n2 c2, chain h n2 c2 ->
  forall fuel n1, (length c2 <= fuel)%nat -> is_Some (Match fuel h n1 n2).
Proof.
  induction 1 as [|y c2 H2 IH]; intros fuel n1 Hfuel.
  - destruct fuel, n1; simpl; eauto.
  - simpl in Hfuel. destruct fuel as [|fuel]; [lia|].
    destruct n1 as [x|]; [|simpl; eauto]. cbn [Match].
    destruct (negb (Compare h (Some x) (Some y))); [eauto|].
    apply IH. lia.
Qed.

(** X5.  [Match] returns after at most as many turns of its loop as the
    probe has nodes in its parent chain, whatever the candidate and its
    own chain are, and more fuel never changes its answer. *)
Theorem Match_returns (h : heap) (n1 n2 : ptr) (c2 : list loc)
    (fuel fuel' : nat) :
  chain h n2 c2 -> (length c2 <= fuel)%nat -> (fuel <= fuel')%nat ->
  exists b, Match fuel h n1 n2 = Some b /\ Match fuel' h n1 n2 = Some b.
Proof.
  intros H2 Hfuel Hle.
  destruct (Match_returns_chain h n2 c2 H2 fuel n1 Hfuel) as [b Hb].
  exists b. split; [done|]. by apply (Match_mono h fuel).
Qed.

Lemma Match_true_inv (h : heap) :
  forall n1 c1, chain h n1 c1 ->
  forall fuel n2 c2, chain h n2 c2 ->
    Match fuel h n1 n2 = Some true ->
    (length c2 <= length c1)%nat /\
    forall k a b, c1 !! k = Some a -> c2 !! k = Some b ->
                  Compare h (Some a) (Some b) = true.
Proof.
  induction 1 as [|x c1 H1 IH]; intros fuel n2 c2 H2 Hm.
  - destruct H2 as [|y c2 H2]; [|by destruct fuel].
    split; [done|]. by intros [|k] a b.
  - destruct H2 as [|y c2 H2].
    + split; [simpl; lia|]. by intros [|k] a b.
    + destruct fuel as [|fuel]; cbn [Match] in Hm;
        destruct (Compare h (Some x) (Some y)) eqn:Ec; simpl in Hm;
        try done.
      destruct (IH fuel _ c2 H2 Hm) as [Hlen Hall].
      split; [simpl; lia|].
      intros [|k] a b Ha Hb; simpl in Ha, Hb; [by simplify_eq|eauto].
Qed.

(** X6.  [Match] is reflexive on every node with a finite parent
    chain, and transitive: a probe that matches a probe that matches a
    candidate matches the candidate. *)
Theorem Match_preorder (h : heap) (n1 n2 n3 : ptr) (c1 c2 c3 : list loc)
    (f12 f23 fuel : nat) :
  chain h n1 c1 -> chain h n2 c2 -> chain h n3 c3 ->
  (length c1 <= fuel)%nat ->
  Match fuel h n1 n1 = Some true /\
  (Match f12 h n1 n2 = Some true -> Match f23 h n2 n3 = Some true ->
   Match fuel h n1 n3 = Some true).
Proof.
  intros H1 H2 H3 Hfuel. split.
  - rewrite (Match_exhausted h n1 c1 H1 fuel n1 c1 H1).
    + f_equal. by apply bool_decide_eq_true.
    + intros k a b Ha Hb. rewrite Ha in Hb. injection Hb as <-.
      apply Compare_refl.
    + lia.
  - intros H12 H23.
    destruct (Match_true_inv h n1 c1 H1 f12 n2 c2 H2 H12) as [L12 A12].
    destruct (Match_true_inv h n2 c2 H2 f23 n3 c3 H3 H23) as [L23 A23].
    rewrite (Match_exhausted h n1 c1 H1 fuel n3 c3 H3).
    + f_equal. apply bool_decide_eq_true. lia.
    + intros k a c Ha Hc.
      destruct (lookup_lt_is_Some_2 c2 k) as [b Hb].
      { apply lookup_lt_Some in Hc. lia. }
      apply (Compare_true_trans h _ (Some b)); eauto.
    + lia.
Qed.

(** ** NextSibElt and PrevSibElt *)

Lemma sibs_app_inv (h : heap) (par next : ptr) (pre rest : list tree) :
  forall prev, sibs h par prev next (pre ++ rest) ->
               exists prev', sibs h par prev' next rest.
Proof.
  induction pre as [|a pre IH]; intros prev Hs; [eauto|].
  inversion Hs; subst. eauto.
Qed.

Lemma sibs_next (h : heap) (par prev next : ptr) (k : tree)
    (post : list tree) :
  sibs h par prev next (k :: post) ->
  NextSibling (deref h (tloc k)) = first_or next post.
Proof.
  inversion 1 as [|? ? ? ? ? Hk _]; subst.
  by apply shape_deref in Hk as (_ & _ & Hn & _).
Qed.

Lemma sibs_prev (h : heap) (par next : ptr) (k : tree) (post : list tree) :
  forall pre prev,
    sibs h par prev next (pre ++ k :: post) ->
    PrevSibling (deref h (tloc k)) = first_or prev (rev pre).
Proof.
  induction pre as [|a pre IH]; intros prev Hs.
  - inversion Hs as [|? ? ? ? ? Hk _]; subst.
    by apply shape_deref in Hk as (_ & Hp & _).
  - inversion Hs as [|? ? ? ? ? _ Hks]; subst.
    simpl. rewrite first_or_app. by apply IH.
Qed.

Lemma NextSibElt_loop_sibs (h : heap) (par : ptr) :
  forall post k prev fuel,
    sibs h par prev None (k :: post) ->
    (length post <= fuel)%nat ->
    NextSibElt_loop fuel h (tloc k)
    = Some (tloc <$> head (filter (fun k' => is_elt h k' = true) post)).
Proof.
  induction post as [|k' post IH]; intros k prev fuel Hs Hfuel.
  - destruct fuel; simpl; by rewrite (sibs_next _ _ _ _ _ _ Hs).
  - pose proof (sibs_next _ _ _ _ _ _ Hs) as Hn. simpl in Hn.
    inversion Hs as [|? ? ? ? ? _ Hs']; subst.
    simpl in Hfuel. destruct fuel as [|fuel]; [lia|].
    cbn [NextSibElt_loop]. rewrite Hn.
    destruct (bool_decide (Type_ (deref h (tloc k')) = ElementNode)) eqn:E.
    + by rewrite filter_cons_True.
    + rewrite filter_cons_False by (unfold is_elt; by rewrite E).
      apply (IH k' (Some (tloc k))); [done|lia].
Qed.

Lemma PrevSibElt_loop_sibs (h : heap) (par next : ptr) :
  forall pre k post fuel,
    sibs h par None next (pre ++ k :: post) ->
    (length pre <= fuel)%nat ->
    PrevSibElt_loop fuel h (tloc k)
    = Some (tloc <$> last (filter (fun k' => is_elt h k' = true) pre)).
Proof.
  induction pre as [|k' pre IH] using rev_ind; intros k post fuel Hs Hfuel.
  - destruct fuel; simpl; by rewrite (sibs_prev _ _ _ _ _ [] _ Hs).
  - pose proof (sibs_prev _ _ _ _ _ _ _ Hs) as Hp.
    rewrite rev_app_distr in Hp. simpl in Hp.
    rewrite length_app in Hfuel. simpl in Hfuel.
    destruct fuel as [|fuel]; [lia|].
    cbn [PrevSibElt_loop]. rewrite Hp. rewrite filter_app.
    destruct (bool_decide (Type_ (deref h (tloc k')) = ElementNode)) eqn:E.
    + rewrite filter_cons_True by done. rewrite filter_nil.
      by rewrite last_snoc.
    + rewrite filter_cons_False by (unfold is_elt; by rewrite E).
      rewrite filter_nil, app_nil_r.
      rewrite <- app_assoc in Hs. simpl in Hs.
      apply (IH k' (k :: post)); [done|lia].
Qed.

(** X7.  For a child of a node, [NextSibElt] returns the first of the
    children after it that is of type [html.ElementNode], and nil when
    there is none; as many loop turns as there are later siblings
    suffice. *)
Theorem NextSibElt_first_element (h : heap) (par prev next : ptr) (l : loc)
    (pre post : list tree) (k : tree) (fuel : nat) :
  shape h par prev next (Tr l (pre ++ k :: post)) ->
  (length post <= fuel)%nat ->
  NextSibElt fuel h (Some (tloc k))
  = Some (tloc <$> head (filter (fun k' => is_elt h k' = true) post)).
Proof.
  intros Hs Hfuel. inversion Hs as [? ? ? ? ? nd _ _ _ _ _ _ Hsibs]; subst.
  apply sibs_app_inv in Hsibs as [prev' Hsibs].
  by apply (NextSibElt_loop_sibs h (Some l) post k prev').
Qed.

(** X8.  For a child of a node, [PrevSibElt] returns the last of the
    children before it that is of type [html.ElementNode], and nil when
    there is none. *)
Theorem PrevSibElt_last_element (h : heap) (par prev next : ptr) (l : loc)
    (pre post : list tree) (k : tree) (fuel : nat) :
  shape h par prev next (Tr l (pre ++ k :: post)) ->
  (length pre <= fuel)%nat ->
  PrevSibElt fuel h (Some (tloc k))
  = Some (tloc <$> last (filter (fun k' => is_elt h k' = true) pre)).
Proof.
  intros Hs Hfuel. inversion Hs as [? ? ? ? ? nd _ _ _ _ _ _ Hsibs]; subst.
  by apply (PrevSibElt_loop_sibs h (Some l) None pre k post).
Qed.

(** ** Next and Prev, node by node *)

Lemma hd_or_drop (xs : list (loc * Z)) (e : ptr) (ed : Z) (j : nat) :
  hd_or (drop j xs) e ed
  = match xs !! j with Some (y, dy) => (Some y, dy) | None => (e, ed) end.
Proof.
  revert xs. induction j as [|j IH]; intros [|[x dx] xs]; simpl; try done.
Qed.

Lemma linked_at (h : heap) (root : ptr) (F : nat) xs e ed i x dx :
  linked F h root xs e ed -> xs !! i = Some (x, dx) ->
  Next F h (Some x) root
  = Some (match xs !! S i with
          | Some (y, dy) => (Some y, dy - dx)
          | None => (e, ed - dx)
          end).
Proof.
  intros Hl Hi. apply (linked_drop _ _ _ _ _ _ i) in Hl.
  rewrite (drop_S _ _ _ Hi) in Hl. apply linked_hd in Hl. rewrite Hl.
  rewrite hd_or_drop. by destruct (xs !! S i) as [[y dy]|].
Qed.

(** X9.  On a tree, [Next] at the node in position [i] of the pre-order
    returns the node in position [i + 1] together with the difference
    of their depths, and at the last node it returns nil together with
    minus the depth of that node; it never leaves the subtree of the
    bound. *)
Theorem Next_successor (h : heap) (t : tree) (F i : nat) (x : loc) (dx : Z) :
  is_tree h t -> (height t <= F)%nat ->
  preorder_d 0 t !! i = Some (x, dx) ->
  Next F h (Some x) (Some (tloc t))
  = Some (match preorder_d 0 t !! S i with
          | Some (y, dy) => (Some y, dy - dx)
          | None => (None, - dx)
          end).
Proof.
  intros Ht HF Hi. pose proof (linked_root h t Ht) as Hl.
  rewrite (Next_mono _ _ _ (height t) F _
             (linked_at _ _ _ _ _ _ _ _ _ Hl Hi) HF).
  by destruct (preorder_d 0 t !! S i) as [[y dy]|].
Qed.

(** X10.  [Prev] does the same on the mirror image of the tree: at the
    node in position [i] of the mirrored pre-order it returns the node
    in position [i + 1] and the difference of their depths. *)
Theorem Prev_successor (h : heap) (t : tree) (F i : nat) (x : loc) (dx : Z) :
  is_tree h t -> (height t <= F)%nat ->
  preorder_d 0 (mirror t) !! i = Some (x, dx) ->
  Prev F h (Some x) (Some (tloc t))
  = Some (match preorder_d 0 (mirror t) !! S i with
          | Some (y, dy) => (Some y, dy - dx)
          | None => (None, - dx)
          end).
Proof.
  intros Ht HF Hi. rewrite Prev_flip.
  pose proof (linked_root _ _ (is_tree_mirror _ _ Ht)) as Hl.
  rewrite tloc_mirror, height_mirror in Hl.
  rewrite (Next_mono _ _ _ (height t) F _
             (linked_at _ _ _ _ _ _ _ _ _ Hl Hi) HF).
  by destruct (preorder_d 0 (mirror t) !! S i) as [[y dy]|].
Qed.

(** X11.  The traversal can be resumed at any node: repeated [Next]
    steps from a node of the tree visit that node and the nodes after
    it in pre-order, and nothing else. *)
Theorem forward_resume (h : heap) (t : tree) (fuel : nat)
    (pre post : list loc) (x : loc) :
  is_tree h t ->
  (height t + length (preorder t) <= fuel)%nat ->
  preorder t = pre ++ x :: post ->
  exists tr,
    forward fuel h (Some (tloc t)) (Some x) = Some tr /\
    tr.*1 = x :: post.
Proof.
  intros Ht Hfuel Hpre. pose proof (linked_root h t Ht) as Hl.
  apply (linked_drop _ _ _ _ _ _ (length pre)) in Hl.
  assert (Hi : preorder t !! length pre = Some x)
    by (by rewrite Hpre, list_lookup_middle).
  rewrite <- (preorder_d_fst t 0), list_lookup_fmap in Hi.
  destruct (preorder_d 0 t !! length pre) as [[x' dx]|] eqn:Ex; [|done].
  simpl in Hi. injection Hi as ->.
  pose proof (forward_linked h _ _ _ 0 fuel Hl) as Hf.
  assert (Hst : (hd_or (drop (length pre) (preorder_d 0 t)) None 0).1
                = Some x) by (by rewrite (drop_S _ _ _ Ex)).
  rewrite Hst in Hf. eexists. split.
  - apply Hf. rewrite length_drop. apply size_fuel in Hfuel. lia.
  - rewrite deltas_fst, fmap_drop, preorder_d_fst, Hpre.
    by rewrite drop_app_length.
Qed.

(** X12.  With nil for the bound, the traversal of a tree whose root
    has neither a parent nor a next sibling is the same as with the
    root for the bound. *)
Theorem forward_nil_bound (h : heap) (t : tree) (prev : ptr) (fuel : nat) :
  shape h None prev None t -> NoDup (preorder t) ->
  (height t + length (preorder t) <= fuel)%nat ->
  exists tr,
    forward fuel h None (Some (tloc t)) = Some tr /\
    forward fuel h (Some (tloc t)) (Some (tloc t)) = Some tr /\
    tr.*1 = preorder t.
Proof.
  intros Hs Hnd Hfuel.
  assert (Hl : linked (height t) h None (preorder_d 0 t) None 0).
  { replace 0 with (0 + 0) at 2 by lia.
    apply (linked_tree h _ _ t None prev None O); [done|done| |lia].
    intros d'. apply shape_deref in Hs as (Hp & _ & Hn & _).
    simpl. rewrite Hn, Hp. by rewrite Z.add_0_r. }
  pose proof (forward_linked h _ _ _ 0 fuel Hl (size_fuel _ _ Hfuel)) as Hf.
  destruct (preorder_d_hd 0 t) as [xs Hxs]. rewrite Hxs in Hf at 1.
  exists (deltas (preorder_d 0 t) 0). split; [exact Hf|]. split.
  - apply forward_tree; [|done]. split; [eauto|done].
  - by rewrite deltas_fst, preorder_d_fst.
Qed.

(** X13.  Over a complete traversal with [Prev] from the root the
    deltas add up to zero as well, and the nodes visited are those of
    the forward traversal in another order. *)
Theorem backward_deltas_sum_zero (h : heap) (t : tree) (fuel : nat) :
  is_tree h t ->
  (height t + length (preorder t) <= fuel)%nat ->
  exists tr,
    backward fuel h (Some (tloc t)) (Some (tloc t)) = Some tr /\
    tr.*1 ≡ₚ preorder t /\
    sumZ tr.*2 = 0.
Proof.
  intros Ht Hfuel. rewrite backward_flip.
  pose proof (forward_tree (flip h) (mirror t) fuel
                (is_tree_mirror _ _ Ht) (fuel_mirror _ _ Hfuel)) as Hf.
  rewrite tloc_mirror in Hf. eexists. split; [exact Hf|]. split.
  - rewrite deltas_fst, preorder_d_fst, preorder_mirror.
    by rewrite <- Permutation_rev, postorder_perm.
  - destruct (preorder_d_hd 0 (mirror t)) as [xs ->].
    rewrite deltas_sum. lia.
Qed.

(** ** Find *)

Lemma matching_cons (fuel : nat) (h : heap) (n2 : ptr) (x : loc)
    (ls : list loc) (b : bool) :
  Match fuel h (Some x) n2 = Some b ->
  matching fuel h n2 (x :: ls)
  = (if b then [x] else []) ++ matching fuel h n2 ls.
Proof.
  intros Hb. unfold matching. destruct b.
  - by rewrite filter_cons_True.
  - rewrite filter_cons_False; [done|]. by rewrite Hb.
Qed.

Lemma Find_loop_linked (h : heap) (root n2 : ptr) (c2 : list loc) (F : nat) :
  chain h n2 c2 ->
  forall xs ed fuel acc,
    linked F h root xs None ed ->
    (F + length xs <= fuel)%nat ->
    (length c2 + length xs <= fuel)%nat ->
    Find_loop fuel h root n2 (hd_or xs None ed).1 acc
    = Some (acc ++ matching (length c2) h n2 xs.*1).
Proof.
  intros H2. induction xs as [|[x dx] xs IH]; intros ed fuel acc Hl HF Hc.
  - destruct fuel; simpl; by rewrite app_nil_r.
  - simpl in HF, Hc. destruct fuel as [|fuel]; [lia|].
    cbn [hd_or fst Find_loop].
    destruct (Match_returns_chain h n2 c2 H2 (length c2) (Some x))
      as [b Hb]; [done|].
    rewrite (Match_mono h _ (S fuel) _ _ _ Hb) by lia.
    cbn [mbind option_bind].
    rewrite (Next_mono _ _ _ F (S fuel) _ (linked_hd _ _ _ _ _ _ _ _ Hl))
      by lia.
    cbn [mbind option_bind fmap list_fmap].
    destruct Hl as [_ Hl]. rewrite (IH ed fuel _ Hl) by lia.
    rewrite (matching_cons _ _ _ _ _ b Hb).
    destruct b; by rewrite <- ?app_assoc.
Qed.

Lemma Find_loop_tree (h : heap) (t : tree) (n2 : ptr)
    (c2 : list loc) (fuel : nat) :
  is_tree h t -> chain h n2 c2 ->
  (height t + length (preorder t) <= fuel)%nat ->
  (length c2 + length (preorder t) <= fuel)%nat ->
  Find_loop fuel h (Some (tloc t)) n2 (Some (tloc t)) []
  = Some (matching (length c2) h n2 (preorder t)).
Proof.
  intros Ht H2 HF Hc. pose proof (linked_root h t Ht) as Hl.
  pose proof (Find_loop_linked h _ n2 c2 _ H2 _ 0 fuel [] Hl
                (size_fuel _ _ HF)) as Hf.
  rewrite preorder_d_fst in Hf.
  destruct (preorder_d_hd 0 t) as [xs Hxs].
  assert (Hst : (hd_or (preorder_d 0 t) None 0).1 = Some (tloc t))
    by (by rewrite Hxs).
  rewrite Hst in Hf. apply Hf.
  by rewrite <- (preorder_d_fst t 0), length_fmap in Hc.
Qed.

(** X14.  On a tree and with a probe whose parent chain is finite, the
    search loop of [Find] returns exactly the nodes of the tree that
    [Match] the probe, each once and in pre-order (document order). *)
Theorem Find_loop_matching (h : heap) (t : tree) (n2 : ptr)
    (c2 : list loc) (fuel : nat) :
  is_tree h t -> chain h n2 c2 ->
  (height t + length (preorder t) <= fuel)%nat ->
  (length c2 + length (preorder t) <= fuel)%nat ->
  Find_loop fuel h (Some (tloc t)) n2 (Some (tloc t)) []
  = Some (matching (length c2) h n2 (preorder t)).
Proof.
  apply Find_loop_tree.
Qed.

Lemma alloc_subseteq (h : heap) (nd : Node) : h ⊆ (alloc h nd).1.
Proof.
  unfold alloc. simpl. apply insert_subseteq, not_elem_of_dom, is_fresh.
Qed.

Lemma shape_sibs_mono (h h' : heap) :
  h ⊆ h' ->
  (forall par prev next t,
      shape h par prev next t -> shape h' par prev next t) /\
  (forall par prev next ks,
      sibs h par prev next ks -> sibs h' par prev next ks).
Proof.
  intros Hsub. apply shape_sibs_ind.
  - intros par prev next l ks nd Hl Hp Hpr Hn Hf Hlc _ IH.
    apply (shape_Tr _ _ _ _ _ _ nd); try done.
    by apply (lookup_weaken h).
  - intros. constructor.
  - intros. by constructor.
Qed.

Lemma shape_sibs_dom (h : heap) :
  (forall par prev next t,
      shape h par prev next t ->
      Forall (fun x => is_Some (h !! x)) (preorder t)) /\
  (forall par prev next ks,
      sibs h par prev next ks ->
      Forall (fun x => is_Some (h !! x)) (flat_map preorder ks)).
Proof.
  apply shape_sibs_ind.
  - intros par prev next l ks nd Hl _ _ _ _ _ _ IH. simpl.
    constructor; [eauto|done].
  - intros. constructor.
  - intros par prev next k ks _ IHk _ IHks. simpl.
    apply Forall_app. done.
Qed.

Lemma deref_weaken (h h' : heap) (l : loc) :
  h ⊆ h' -> is_Some (h !! l) -> deref h' l = deref h l.
Proof.
  intros Hsub [nd Hl]. unfold deref.
  by rewrite Hl, (lookup_weaken _ _ _ _ Hl Hsub).
Qed.

Lemma is_tree_mono (h h' : heap) (t : tree) :
  h ⊆ h' -> is_tree h t -> is_tree h' t.
Proof.
  intros Hsub [(par & prev & next & Hs) Hnd]. split; [|done].
  exists par, prev, next. by apply (shape_sibs_mono h h' Hsub).
Qed.

Lemma Leaf_failure_eq {error : Type}
    (ParseFragment : heap -> string -> loc -> heap * list ptr * option error)
    (fuel : nat) (h : heap) (fragment : string) :
  let a := alloc h (mkNode None None None None None ElementNode "" "" []) in
  let r := ParseFragment a.1 fragment a.2 in
  let e := alloc r.1.1
             (mkNode None None None None None ErrorNode "" "" []) in
  is_Some r.2 \/ r.1.2 = [] ->
  Leaf ParseFragment fuel h fragment = Some (e.1, Some e.2).
Proof.
  intros a r e Hfail. unfold Leaf. fold a.
  destruct a as [h1 ctx] eqn:Ea. simpl in r. fold r.
  subst e. destruct r as [[h2 ns] err] eqn:Er. cbn [fst snd] in *.
  assert (Hcond : (match err with Some _ => true | None => false end)
                  || bool_decide (length ns = O) = true).
  { destruct Hfail as [[x ->]| ->]; [done|]. by rewrite orb_true_r. }
  rewrite Hcond.
  by destruct (alloc h2 (mkNode None None None None None ErrorNode "" "" [])).
Qed.

Lemma matching_none (fuel : nat) (h : heap) (n2 : ptr) (ls : list loc) :
  Forall (fun l => Match fuel h (Some l) n2 = Some false) ls ->
  matching fuel h n2 ls = [].
Proof.
  induction 1 as [|x ls Hx _ IH]; [done|].
  by rewrite (matching_cons _ _ _ _ _ false Hx), IH.
Qed.

(** X15.  End to end: when the parser rejects the fragment and leaves
    the nodes that existed before it ran as they were, [Find] on a tree
    without nodes of type [html.ErrorNode] returns the empty list, and
    does return. *)
Theorem Find_parse_failure_empty {error : Type}
    (ParseFragment : heap -> string -> loc -> heap * list ptr * option error)
    (fuel : nat) (h : heap) (t : tree) (fragment : string) :
  let a := alloc h (mkNode None None None None None ElementNode "" "" []) in
  let r := ParseFragment a.1 fragment a.2 in
  is_Some r.2 \/ r.1.2 = [] ->
  a.1 ⊆ r.1.1 ->
  is_tree h t ->
  Forall (fun l => Type_ (deref h l) <> ErrorNode) (preorder t) ->
  (height t + length (preorder t) <= fuel)%nat ->
  (1 + length (preorder t) <= fuel)%nat ->
  exists h', Find ParseFragment fuel h (Some (tloc t)) fragment
             = Some (h', []).
Proof.
  intros a r Hfail Hkeep Ht Hty HF H1. unfold Find.
  rewrite (Leaf_failure_eq ParseFragment fuel h fragment Hfail).
  fold a. fold r. cbn [mbind option_bind].
  set (nd := mkNode None None None None None ErrorNode "" "" []).
  pose proof (deref_alloc r.1.1 nd) as Hd.
  pose proof (alloc_subseteq r.1.1 nd) as Hsub3.
  assert (Hsub : h ⊆ (alloc r.1.1 nd).1).
  { etrans; [apply (alloc_subseteq h)|]. etrans; [exact Hkeep|done]. }
  destruct (alloc r.1.1 nd) as [h3 e]. simpl in *.
  assert (Hc : chain h3 (Some e) [e]).
  { constructor. rewrite Hd. simpl. constructor. }
  rewrite (Find_loop_tree h3 t (Some e) [e] fuel
             (is_tree_mono _ _ _ Hsub Ht) Hc HF H1).
  cbn [mbind option_bind]. exists h3. do 2 f_equal.
  apply matching_none.
  destruct Ht as [(par & prev & next & Hs) _].
  pose proof (proj1 (shape_sibs_dom h) _ _ _ _ Hs) as Hdom.
  rewrite Forall_forall in Hty, Hdom. apply Forall_forall. intros x Hx.
  assert (Hcmp : Compare h3 (Some x) (Some e) = false).
  { apply Compare_type. rewrite Hd. simpl.
    rewrite (deref_weaken h h3 x Hsub (Hdom x Hx)). by apply Hty. }
  cbn [length Match]. by rewrite Hcmp.
Qed.





(** ** Leaf on a successful parse *)

Lemma Leaf_descend_tree (h : heap) :
  forall t par prev next fuel,
    shape h par prev next t -> (height t <= fuel)%nat ->
    Leaf_descend fuel h (tloc t) = Some (leftmost t).
Proof.
  induction t as [l ks IH] using tree_ind'.
  intros par prev next fuel Hs Hfuel.
  pose proof (shape_deref _ _ _ _ _ Hs) as (_ & _ & _ & Hfc & _).
  simpl in Hfc. destruct ks as [|k ks].
  - destruct fuel; simpl; by rewrite Hfc.
  - inversion Hs as [? ? ? ? ? nd _ _ _ _ _ _ Hsibs]; subst.
    inversion Hsibs as [|? ? ? ? ? Hk _]; subst.
    apply Forall_cons in IH as [IHk _].
    pose proof (height_kid l (k :: ks) k) as Hh.
    destruct fuel as [|fuel]; [specialize (Hh ltac:(by left)); lia|].
    cbn [Leaf_descend tloc]. rewrite Hfc. simpl.
    apply (IHk _ _ _ fuel Hk). specialize (Hh ltac:(by left)). lia.
Qed.

(** X16.  When the parser succeeds and its first root is the root of a
    tree, [Leaf] returns the leaf reached from that root by following
    first children, in the heap the parser left; as many loop turns as
    the tree is high suffice. *)
Theorem Leaf_leftmost {error : Type}
    (ParseFragment : heap -> string -> loc -> heap * list ptr * option error)
    (fuel : nat) (h h2 : heap) (fragment : string) (t : tree)
    (ns : list ptr) (par prev next : ptr) :
  let a := alloc h (mkNode None None None None None ElementNode "" "" []) in
  ParseFragment a.1 fragment a.2 = (h2, Some (tloc t) :: ns, None) ->
  shape h2 par prev next t ->
  (height t <= fuel)%nat ->
  Leaf ParseFragment fuel h fragment = Some (h2, Some (leftmost t)) /\
  FirstChild (deref h2 (leftmost t)) = None.
Proof.
  intros a Hp Hs Hfuel.
  assert (HL : Leaf ParseFragment fuel h fragment
               = Some (h2, Some (leftmost t))).
  { unfold Leaf. fold a. destruct a as [h1 ctx]. simpl in Hp.
    rewrite Hp. simpl.
    by rewrite (Leaf_descend_tree h2 t par prev next fuel Hs Hfuel). }
  split; [done|].
  pose proof (Leaf_descend_tree h2 t par prev next fuel Hs Hfuel) as Hd.
  by apply Leaf_descend_leaf in Hd.
Qed.

(** ** String *)

(** X17.  [String] never panics: the slice expression of its colouring
    closure is in range for every node, coloured or not; for nil it
    returns the empty string. *)
Theorem String_never_panics (Sprintf_v : string -> string) (h : heap)
    (n : ptr) (colour : bool) :
  is_Some (String_ Sprintf_v h n colour) /\
  String_ Sprintf_v h None colour = Some "".
Proof.
  split; [apply String_is_Some|done].
Qed.

Lemma substring_0_append (a b : string) :
  String.substring 0 (String.length a) (a +:+ b) = a.
Proof.
  induction a as [|c a IH]; [by destruct b|].
  rewrite append_cons. cbn [String.length String.substring]. by rewrite IH.
Qed.

Lemma slice_to_append (a b : string) :
  slice_to (a +:+ b)
    (Z.of_nat (String.length (a +:+ b)) - Z.of_nat (String.length b))
  = Some a.
Proof.
  unfold slice_to. rewrite length_append.
  destruct (Z.ltb_spec (Z.of_nat (String.length a + String.length b)
                        - Z.of_nat (String.length b)) 0); [lia|].
  destruct (Z.ltb_spec (Z.of_nat (String.length a + String.length b))
              (Z.of_nat (String.length a + String.length b)
               - Z.of_nat (String.length b))); [lia|].
  simpl. f_equal.
  replace (Z.to_nat _) with (String.length a) by lia.
  apply substring_0_append.
Qed.

Lemma String_c_loop_eq (col rst : string) (ss : list string) :
  forall cs,
    foldl (fun cs s => cs +:+ col +:+ s +:+ rst +:+ nl) cs ss
    = cs +:+ concat_str (map (fun s => col +:+ s +:+ rst +:+ nl) ss).
Proof.
  induction ss as [|s ss IH]; intros cs; simpl.
  - by rewrite append_nil_r.
  - rewrite IH. unfold concat_str. simpl. by rewrite !append_assoc.
Qed.

Lemma concat_str_lines (col rst : string) (ss : list string) :
  ss <> [] ->
  concat_str (map (fun s => col +:+ s +:+ rst +:+ nl) ss)
  = String.concat nl (map (fun s => col +:+ s +:+ rst) ss) +:+ nl.
Proof.
  induction ss as [|s ss IH]; intros Hne; [done|].
  destruct ss as [|s' ss].
  - unfold concat_str. simpl. by rewrite append_nil_r, !append_assoc.
  - specialize (IH ltac:(done)). unfold concat_str in *.
    cbn [map foldr] in IH |- *. rewrite IH.
    cbn [String.concat]. by rewrite !append_assoc.
Qed.

Lemma concat_Split_nl (str : string) : String.concat nl (Split_nl str) = str.
Proof.
  induction str as [|c str IH]; [done|]. cbn [Split_nl].
  pose proof (Split_nl_nonempty str) as Hne.
  destruct (bool_decide_reflect (c = ascii_of_nat 10)) as [->|Hc].
  - destruct (Split_nl str) as [|s ss]; [done|].
    rewrite <- IH. reflexivity.
  - destruct (Split_nl str) as [|s ss]; [done|].
    rewrite <- IH. by destruct ss.
Qed.

(** X18.  The colouring closure of [String] keeps the text: it splits
    the string at its newlines, puts the colour code before and the
    reset code after every line and joins the lines with newlines
    again; without colours it returns the string unchanged. *)
Theorem String_c_lines (str col : string) :
  String_c true str col
  = Some (String.concat nl
            (map (fun s => col +:+ s +:+ (esc +:+ "[0m")) (Split_nl str))) /\
  String.concat nl (Split_nl str) = str /\
  String_c false str col = Some str.
Proof.
  split; [|split; [apply concat_Split_nl|done]].
  unfold String_c. cbv zeta.
  rewrite String_c_loop_eq.
  rewrite (concat_str_lines _ _ _ (Split_nl_nonempty str)).
  change ("" +:+ ?x) with x.
  match goal with |- slice_to (?a +:+ nl) _ = _ =>
    pose proof (slice_to_append a nl) as Hs end.
  exact Hs.
Qed.

Lemma String_c_one_line (colour : bool) (s col : string) :
  Split_nl s = [s] ->
  String_c colour s col
  = Some (if colour then col +:+ s +:+ (esc +:+ "[0m") else s).
Proof.
  intros Hs. destruct colour; [|done]. unfold String_c. cbv zeta.
  rewrite Hs. cbn [foldl]. change ("" +:+ ?x) with x.
  set (rst := esc +:+ "[0m").
  replace (col +:+ s +:+ rst +:+ nl) with ((col +:+ s +:+ rst) +:+ nl)
    by (by rewrite !append_assoc).
  exact (slice_to_append (col +:+ s +:+ rst) nl).
Qed.

(** X19.  For a node whose type is one of the six constants, the text
    [String] returns starts with the letter of that type and a space,
    wrapped in the magenta and reset codes when coloured; for a node of
    any other type value [String] returns the empty string. *)
Theorem String_type_letter (Sprintf_v : string -> string) (h : heap)
    (l : loc) (colour : bool) :
  match Type_ (deref h l) with
  | OtherType _ => String_ Sprintf_v h (Some l) colour = Some ""
  | ty =>
      exists rest,
        String_ Sprintf_v h (Some l) colour
        = Some ((if colour then esc +:+ "[35m" else "")
                +:+ type_letter ty +:+ " "
                +:+ (if colour then esc +:+ "[0m" else "") +:+ rest)
  end.
Proof.
  unfold String_. cbv zeta.
  destruct (Type_ (deref h l)); [..|reflexivity];
    match goal with
    | |- context [String_c colour ?s (esc +:+ "[35m")] =>
        rewrite (String_c_one_line colour s (esc +:+ "[35m") eq_refl)
    end;
    repeat match goal with
      | |- context [String_c ?c ?s ?col] =>
          lazymatch s with
          | Data _ => idtac
          | Namespace _ => idtac
          end;
          let x := fresh "x" in
          destruct (String_c_is_Some c s col) as [x ->]
      | |- context [String_attrs ?f ?c ?al ?a] =>
          let x := fresh "x" in
          destruct (String_attrs_is_Some f c al a) as [x ->]
      | |- context [bool_decide ?P] => destruct (bool_decide P)
      end;
    cbn [mbind option_bind];
    match goal with
    | |- exists rest, Some (_ +:+ ?y) = _ => exists y
    end;
    destruct colour; reflexivity.
Qed.

(** ** What PrintTree writes *)

Lemma TrimLeft_blank (s : string) : all_blank s = true -> TrimLeft s = "".
Proof.
  induction s as [|c s IH]; [done|]. simpl.
  destruct (in_cutset c); [exact IH|done].
Qed.

Lemma TrimLeft_empty (s : string) : TrimLeft s = "" -> all_blank s = true.
Proof.
  induction s as [|c s IH]; [done|]. simpl.
  destruct (in_cutset c); [exact IH|done].
Qed.

Lemma TrimLeft_head (s : string) :
  TrimLeft s = "" \/
  exists c s', TrimLeft s = String c s' /\ in_cutset c = false.
Proof.
  induction s as [|c s IH]; [by left|]. simpl.
  destruct (in_cutset c) eqn:E; [exact IH|]. right. eauto.
Qed.

Lemma all_blank_rev_app (s acc : string) :
  all_blank (String.rev_app s acc) = all_blank s && all_blank acc.
Proof.
  revert acc. induction s as [|c s IH]; intros acc; [done|].
  simpl. rewrite IH. simpl.
  destruct (in_cutset c), (all_blank s), (all_blank acc); done.
Qed.

Lemma rev_app_empty (s acc : string) :
  String.rev_app s acc = "" -> s = "" /\ acc = "".
Proof.
  revert acc. induction s as [|c s IH]; intros acc; [done|].
  simpl. intros H. by apply IH in H as [_ ?].
Qed.

(** The test [strings.Trim(n.Data, "\r\n\t ") != ""] of [PrintTree]
    fails exactly on the strings made of those four characters. *)
Lemma Trim_empty (s : string) : bool_decide (Trim s = "") = all_blank s.
Proof.
  destruct (all_blank s) eqn:E.
  - apply bool_decide_eq_true. unfold Trim.
    by rewrite (TrimLeft_blank s E).
  - apply bool_decide_eq_false. unfold Trim, String.rev. intros H.
    apply rev_app_empty in H as [H _]. apply TrimLeft_empty in H.
    rewrite all_blank_rev_app, andb_true_r in H.
    destruct (TrimLeft_head s) as [H0|(c & s' & Hs & Hc)].
    + apply TrimLeft_empty in H0. congruence.
    + rewrite Hs in H. simpl in H. by rewrite Hc in H.
Qed.

Lemma indent_of_snoc (n : nat) : indent_of n +:+ "  " = indent_of (S n).
Proof.
  induction n as [|n IH]; [done|].
  cbn [indent_of] in *. by rewrite append_assoc, IH.
Qed.

Lemma PrintTree_unindent_exact (k : nat) :
  forall m, PrintTree_unindent k (indent_of (k + m)) = Some (indent_of m).
Proof.
  induction k as [|k IH]; intros m; [done|].
  cbn [PrintTree_unindent]. replace (S k + m)%nat with (S (k + m)) by lia.
  rewrite <- indent_of_snoc.
  pose proof (slice_to_append (indent_of (k + m)) "  ") as Hs.
  change (Z.of_nat (String.length "  ")) with 2 in Hs.
  rewrite Hs. cbn [mbind option_bind]. apply IH.
Qed.

Section PrintTree_lines.

Context {error W : Type}.
Variable Fprintf : W -> string -> W * option error.
Variable Sprintf_v : string -> string.

Lemma PrintTree_print_eq (h : heap) (colour : bool) (w : W)
    (indent : string) (l : loc) :
  PrintTree_print Fprintf Sprintf_v h colour w indent l
  = if printed h l
    then match Fprintf w (indent
                          +:+ default "" (String_ Sprintf_v h (Some l) colour)
                          +:+ nl) with
         | (w', Some err) => inl (PT_return w' (Some err))
         | (w', None) => inr w'
         end
    else inr w.
Proof.
  unfold PrintTree_print, printed. rewrite Trim_empty.
  destruct (_ || _); [|done].
  by destruct (String_is_Some Sprintf_v h (Some l) colour) as [line ->].
Qed.

Lemma PrintTree_advance_exact (h : heap) (root : ptr) (F fuel : nat)
    (w : W) x dx rest ed :
  linked F h root ((x, dx) :: rest) None ed ->
  0 <= dx -> 0 <= (hd_or rest None ed).2 -> (F <= fuel)%nat ->
  PrintTree_advance (error := error) fuel h root w
    (indent_of (Z.to_nat dx)) x
  = inr (w, indent_of (Z.to_nat (hd_or rest None ed).2),
         (hd_or rest None ed).1).
Proof.
  intros Hl Hdx Hd HF. apply linked_hd in Hl. unfold PrintTree_advance.
  rewrite (Next_mono _ _ _ _ fuel _ Hl HF).
  pose proof (Next_le_1 _ _ _ _ _ _ Hl) as Hle.
  set (d' := (hd_or rest None ed).2) in *.
  destruct (bool_decide_reflect (d' - dx = 1)) as [H1|H1].
  - replace (Z.to_nat d') with (S (Z.to_nat dx)) by lia.
    by rewrite indent_of_snoc.
  - replace (Z.to_nat dx) with (Z.to_nat (- (d' - dx)) + Z.to_nat d')%nat
      by lia.
    by rewrite PrintTree_unindent_exact.
Qed.

Lemma render_cons (h : heap) (colour : bool) x dx xs :
  render Sprintf_v h colour ((x, dx) :: xs)
  = (if printed h x
     then [indent_of (Z.to_nat dx)
           +:+ default "" (String_ Sprintf_v h (Some x) colour) +:+ nl]
     else []) ++ render Sprintf_v h colour xs.
Proof.
  unfold render. destruct (printed h x) eqn:E.
  - by rewrite filter_cons_True.
  - rewrite filter_cons_False; [done|]. simpl. by rewrite E.
Qed.

Lemma PrintTree_loop_output (h : heap) (root : ptr) (colour : bool)
    (F : nat) :
  forall xs ed fuel w,
    linked F h root xs None ed ->
    Forall (fun p : loc * Z => 0 <= p.2) xs -> 0 <= ed ->
    (F + length xs <= fuel)%nat ->
    PrintTree_loop Fprintf Sprintf_v fuel h root colour w
      (indent_of (Z.to_nat (hd_or xs None ed).2)) (hd_or xs None ed).1
    = PT_return
        (write_lines Fprintf w (render Sprintf_v h colour xs)).1
        (write_lines Fprintf w (render Sprintf_v h colour xs)).2.
Proof.
  induction xs as [|[x dx] xs IH]; intros ed fuel w Hl Hd Hed Hfuel.
  - by destruct fuel.
  - simpl in Hfuel. destruct fuel as [|fuel]; [lia|].
    cbn [hd_or fst snd PrintTree_loop]. unfold PrintTree_body.
    apply Forall_cons in Hd as [Hdx Hd]. simpl in Hdx.
    assert (Hnext : 0 <= (hd_or xs None ed).2).
    { destruct xs as [|[y dy] xs]; [done|].
      by apply Forall_cons in Hd as [Hy _]. }
    rewrite PrintTree_print_eq, render_cons.
    assert (Hgo : forall w1,
               match PrintTree_advance (S fuel) h root w1
                       (indent_of (Z.to_nat dx)) x with
               | inl r => r
               | inr (w', indent', n') =>
                   PrintTree_loop Fprintf Sprintf_v fuel h root colour
                     w' indent' n'
               end
               = PT_return
                   (write_lines Fprintf w1 (render Sprintf_v h colour xs)).1
                   (write_lines Fprintf w1 (render Sprintf_v h colour xs)).2).
    { intros w1.
      rewrite (PrintTree_advance_exact h root F (S fuel) w1 x dx xs ed)
        by (done || lia).
      destruct Hl as [_ Hl]. apply IH; try done. lia. }
    destruct (printed h x); [|apply Hgo].
    cbn [app write_lines].
    destruct (Fprintf w _) as [w' [err|]]; [done|apply Hgo].
Qed.

(** X20.  On a tree, [PrintTree] hands the writer one line for every
    node that is not a text node made of carriage returns, newlines,
    tabs and spaces only, in pre-order; each line is two spaces per
    level of depth, the text of [String] and a newline.  It stops at
    the first write that fails and returns that error, and returns nil
    when every write succeeds. *)
Theorem PrintTree_output (h : heap) (t : tree) (colour : bool)
    (fuel : nat) (w : W) :
  is_tree h t ->
  (height t + length (preorder t) <= fuel)%nat ->
  PrintTree Fprintf Sprintf_v fuel h w (Some (tloc t)) colour
  = PT_return
      (write_lines Fprintf w
         (render Sprintf_v h colour (preorder_d 0 t))).1
      (write_lines Fprintf w
         (render Sprintf_v h colour (preorder_d 0 t))).2.
Proof.
  intros Ht Hfuel. pose proof (linked_root h t Ht) as Hl.
  pose proof (PrintTree_loop_output h _ colour _ _ 0 fuel w Hl
                (preorder_d_depth t 0) ltac:(done)
                (size_fuel _ _ Hfuel)) as Hloop.
  destruct (preorder_d_hd 0 t) as [xs Hxs].
  assert (Hst : hd_or (preorder_d 0 t) None 0 = (Some (tloc t), 0))
    by (by rewrite Hxs).
  rewrite Hst in Hloop. exact Hloop.
Qed.

End PrintTree_lines.

(** X21.  [Compare] looks at the attributes as sets: the order and the
    repetition of attributes change nothing, on the candidate or on the
    pattern. *)
Theorem Compare_attr_set (h : heap) (a a' b b' : loc) :
  Type_ (deref h a) = Type_ (deref h a') ->
  Data (deref h a) = Data (deref h a') ->
  Namespace (deref h a) = Namespace (deref h a') ->
  Type_ (deref h b) = Type_ (deref h b') ->
  Data (deref h b) = Data (deref h b') ->
  Namespace (deref h b) = Namespace (deref h b') ->
  (forall x, x ∈ Attr (deref h a) <-> x ∈ Attr (deref h a')) ->
  (forall x, x ∈ Attr (deref h b) <-> x ∈ Attr (deref h b')) ->
  Compare h (Some a) (Some b) = Compare h (Some a') (Some b').
Proof.
  intros Ht Hd Hn Ht' Hd' Hn' Ha Hb.
  destruct (Compare h (Some a') (Some b')) eqn:E.
  - apply Compare_true in E
      as (? & ? & [= <-] & [= <-] & Et & Ed & En & Ea).
    apply Compare_true. exists a, b. repeat split; try congruence.
    intros x Hx. apply Ha, Ea, Hb, Hx.
  - apply not_true_is_false. intros E'. apply Compare_true in E'
      as (? & ? & [= <-] & [= <-] & Et & Ed & En & Ea).
    assert (E2 : Compare h (Some a') (Some b') = true); [|congruence].
    apply Compare_true. exists a', b'. repeat split; try congruence.
    intros x Hx. apply Ha, Ea, Hb, Hx.
Qed.

(** ** The further properties at the example heaps *)

Local Open Scope positive_scope.

Lemma ex_doc_shape : shape ex_doc None None None ex_tree.
Proof.
  repeat first
    [ apply sibs_nil
    | eapply sibs_cons
    | eapply shape_Tr; [reflexivity..|] ].
Qed.

Lemma ex_probe_shape : shape ex_doc None None None ex_probe_tree.
Proof.
  repeat first
    [ apply sibs_nil
    | eapply sibs_cons
    | eapply shape_Tr; [reflexivity..|] ].
Qed.

Lemma ex_list_shape : shape ex_list None None None ex_list_tree.
Proof.
  repeat first
    [ apply sibs_nil
    | eapply sibs_cons
    | eapply shape_Tr; [reflexivity..|] ].
Qed.

Lemma ex_list_is_tree : is_tree ex_list ex_list_tree.
Proof.
  split; [exists None, None, None; exact ex_list_shape | compute_done].
Qed.

Lemma Compare_trans_witness : Compare ex_attrs (Some 1) (Some 2) = true.
Proof.
  apply (Compare_trans ex_attrs (Some 1) (Some 2) (Some 2)); reflexivity.
Defined.

Lemma Match_returns_witness :
  exists b, Match 2 ex_doc (Some 3) (Some 8) = Some b /\
            Match 5 ex_doc (Some 3) (Some 8) = Some b.
Proof.
  apply (Match_returns ex_doc (Some 3) (Some 8) [8; 7] 2 5).
  - exact (chain_cons ex_doc 8 [7]
             (chain_cons ex_doc 7 [] (chain_nil ex_doc))).
  - simpl. lia.
  - lia.
Defined.

Lemma Match_preorder_witness :
  Match 3 ex_doc (Some 3) (Some 3) = Some true /\
  (Match 2 ex_doc (Some 3) (Some 8) = Some true ->
   Match 1 ex_doc (Some 8) (Some 8) = Some true ->
   Match 3 ex_doc (Some 3) (Some 8) = Some true).
Proof.
  apply (Match_preorder ex_doc (Some 3) (Some 8) (Some 8)
           [3; 2; 1] [8; 7] [8; 7] 2 1 3).
  - exact (chain_cons ex_doc 3 [2; 1]
             (chain_cons ex_doc 2 [1]
                (chain_cons ex_doc 1 [] (chain_nil ex_doc)))).
  - exact (chain_cons ex_doc 8 [7]
             (chain_cons ex_doc 7 [] (chain_nil ex_doc))).
  - exact (chain_cons ex_doc 8 [7]
             (chain_cons ex_doc 7 [] (chain_nil ex_doc))).
  - simpl. lia.
Defined.

Lemma NextSibElt_first_element_witness :
  NextSibElt 3 ex_list (Some 3) = Some (Some 5).
Proof.
  apply (NextSibElt_first_element ex_list None None None 1
           [Tr 2 []] [Tr 4 []; Tr 5 []; Tr 6 []] (Tr 3 [Tr 7 []]) 3).
  - exact ex_list_shape.
  - simpl. lia.
Defined.

Lemma PrevSibElt_last_element_witness :
  PrevSibElt 4 ex_list (Some 6) = Some (Some 5) /\
  PrevSibElt 1 ex_list (Some 3) = Some None.
Proof.
  split.
  - apply (PrevSibElt_last_element ex_list None None None 1
             [Tr 2 []; Tr 3 [Tr 7 []]; Tr 4 []; Tr 5 []] [] (Tr 6 []) 4).
    + exact ex_list_shape.
    + simpl. lia.
  - apply (PrevSibElt_last_element ex_list None None None 1
             [Tr 2 []] [Tr 4 []; Tr 5 []; Tr 6 []] (Tr 3 [Tr 7 []]) 1).
    + exact ex_list_shape.
    + simpl. lia.
Defined.

Lemma Next_successor_witness :
  Next 3 ex_doc (Some 5) (Some 1) = Some (Some 4, (-1)%Z).
Proof.
  apply (Next_successor ex_doc ex_tree 3 3 5 3%Z ex_doc_is_tree).
  - simpl. lia.
  - reflexivity.
Defined.

Lemma Prev_successor_witness :
  Prev 3 ex_doc (Some 6) (Some 1) = Some (Some 3, (-1)%Z).
Proof.
  apply (Prev_successor ex_doc ex_tree 3 3 6 3%Z ex_doc_is_tree).
  - simpl. lia.
  - reflexivity.
Defined.

Lemma forward_resume_witness :
  exists tr,
    forward 10 ex_doc (Some 1) (Some 5) = Some tr /\ tr.*1 = [5; 4; 6].
Proof.
  apply (forward_resume ex_doc ex_tree 10 [1; 2; 3] [4; 6] 5
           ex_doc_is_tree).
  - simpl. lia.
  - reflexivity.
Defined.

Lemma forward_nil_bound_witness :
  exists tr,
    forward 10 ex_doc None (Some 1) = Some tr /\
    forward 10 ex_doc (Some 1) (Some 1) = Some tr /\
    tr.*1 = [1; 2; 3; 5; 4; 6].
Proof.
  apply (forward_nil_bound ex_doc ex_tree None 10 ex_doc_shape).
  - compute_done.
  - simpl. lia.
Defined.

Lemma backward_deltas_sum_zero_witness :
  exists tr,
    backward 10 ex_doc (Some 1) (Some 1) = Some tr /\
    tr.*1 ≡ₚ [1; 2; 3; 5; 4; 6] /\
    sumZ tr.*2 = 0%Z.
Proof.
  apply (backward_deltas_sum_zero ex_doc ex_tree 10 ex_doc_is_tree).
  simpl. lia.
Defined.

Lemma Find_loop_matching_witness :
  Find_loop 10 ex_doc (Some 1) (Some 8) (Some 1) [] = Some [3; 4].
Proof.
  apply (Find_loop_matching ex_doc ex_tree (Some 8) [8; 7] 10
           ex_doc_is_tree).
  - exact (chain_cons ex_doc 8 [7]
             (chain_cons ex_doc 7 [] (chain_nil ex_doc))).
  - simpl. lia.
  - simpl. lia.
Defined.

Lemma Find_parse_failure_empty_witness :
  exists h', Find ex_parse_fail 10 ex_doc (Some 1) "<tr><td>"
             = Some (h', []).
Proof.
  apply (Find_parse_failure_empty ex_parse_fail 10 ex_doc ex_tree
           "<tr><td>").
  - left. simpl. by eexists.
  - done.
  - exact ex_doc_is_tree.
  - repeat constructor; discriminate.
  - simpl. lia.
  - simpl. lia.
Defined.

Lemma Leaf_leftmost_witness :
  Leaf ex_parse_probe 1 ∅ "<div><a>" = Some (ex_doc, Some 8) /\
  FirstChild (deref ex_doc 8) = None.
Proof.
  apply (Leaf_leftmost ex_parse_probe 1 ∅ ex_doc "<div><a>"
           ex_probe_tree [] None None None).
  - reflexivity.
  - exact ex_probe_shape.
  - simpl. lia.
Defined.

Lemma PrintTree_output_witness :
  PrintTree ex_Fprintf id 10 ex_list [] (Some 1) false
  = PT_return
      [ "E ul" +:+ nl;
        "  E li class=x" +:+ nl;
        "    T a" +:+ nl;
        "  E li" +:+ nl;
        "  C end" +:+ nl ]
      None.
Proof.
  apply (PrintTree_output ex_Fprintf id ex_list ex_list_tree false 10 []
           ex_list_is_tree).
  simpl. lia.
Defined.

Lemma Compare_attr_set_witness :
  Compare ex_dups (Some 1) (Some 3) = Compare ex_dups (Some 2) (Some 4).
Proof.
  apply (Compare_attr_set ex_dups 1 2 3 4); try reflexivity.
  - intros x.
    change (x ∈ [mkAttribute "" "a" "1"; mkAttribute "" "b" "2"] <->
            x ∈ [mkAttribute "" "b" "2"; mkAttribute "" "a" "1";
                 mkAttribute "" "a" "1"]).
    rewrite !elem_of_cons, elem_of_nil. tauto.
  - intros x.
    change (x ∈ [mkAttribute "" "a" "1"] <->
            x ∈ [mkAttribute "" "a" "1"; mkAttribute "" "a" "1"]).
    rewrite !elem_of_cons, elem_of_nil. tauto.
Defined.

Local Close Scope positive_scope.
